(** * OAuth client-credentials plugin: token cache and fetch interceptor

    A shallow embedding of [packages/plugin/src/index.ts]: the token fetch
    ([fetchToken]), the per-provider token cache ([getToken]), the fetch
    interceptor ([installFetchInterceptor]) and the event loop that
    interleaves them.

    Conventions.
    - JavaScript numbers are embedded as [Z]: timestamps are milliseconds as
      [Date.now()] returns them, lifetimes and HTTP statuses are integers.
      The embedding covers integer values on which double arithmetic is
      exact.
    - An [async] function runs synchronously up to its first [await]; each
      block of code between two suspension points is one function on the
      shared state, and the event loop runs one block at a time.
    - [log] never throws and touches only the console and the log file; an
      [await log(...)] is a suspension point and nothing else, so it is
      folded into the block that follows it.
    - Strings are strings of bytes: the embedding covers texts whose code
      units are below 256, which is what a header name or value may hold. *)

From Stdlib Require Import ZArith String Ascii List Bool Lia.
From stdpp Require Import base option list gmap strings pretty.

Local Open Scope string_scope.
Local Open Scope list_scope.
Local Open Scope Z_scope.

(** ** Data model *)

(** [interface OAuthConfig] *)
Record OAuthConfig := {
  tokenUrl : string;
  clientId : string;
  clientSecret : string;
  scope : option string;
}.

(** [interface TokenData] *)
Record TokenData := {
  accessToken : string;
  tokenType : string;
  expiresAt : Z;
}.

(** The values of [oauthProviders]. *)
Record ProviderEntry := {
  baseURL : string;
  oauth : OAuthConfig;
}.

(** The JSON object of a successful issuer response, as [res.json()] yields
    it: [access_token] is a string, [token_type] and [expires_in] may be
    absent. *)
Record TokenJson := {
  access_token : string;
  token_type : option string;
  expires_in : option Z;
}.

(** A [Response] of the token endpoint. [tr_text] is what [res.text()]
    resolves to; [tr_json] is what [res.json()] resolves to, [None] when the
    body is not JSON and [res.json()] rejects. *)
Record TokenResponse := {
  tr_status : Z;
  tr_text : string;
  tr_json : option TokenJson;
}.

(** Values that the code throws or that reject a promise. *)
Inductive Thrown :=
| NewError (message : string)          (* [new Error(message)] *)
| TransportRejection (cause : string)  (* [originalFetch] rejected with [cause] *)
| BodyRejection (cause : string)       (* [res.json()] rejected with [cause] *)
| HeaderTypeError.                     (* the [TypeError] of [new Headers(...)]
                                          and of [Headers.set] *)

(** What the transport does with a request: it rejects, or resolves to a
    response. *)
Inductive Reply (R : Type) :=
| Rejects (cause : string)
| Responds (res : R).
Arguments Rejects {R} cause.
Arguments Responds {R} res.

(** A settled promise. *)
Inductive Settled (A : Type) :=
| Fulfilled (a : A)
| Rejected (e : Thrown).
Arguments Fulfilled {A} a.
Arguments Rejected {A} e.

(** ** [fetchToken] *)

(** A request as handed to [originalFetch] by [fetchToken]. The body is the
    [URLSearchParams] list before [toString()] serialises it. *)
Record TokenRequest := {
  rq_url : string;
  rq_method : string;
  rq_headers : list (string * string);
  rq_body : list (string * string);
}.

(** [URLSearchParams.set]: the first pair named [k] gets the value, later
    pairs named [k] are dropped; without one the pair is appended. *)
Fixpoint params_set (k v : string) (ps : list (string * string))
  : list (string * string) :=
  match ps with
  | [] => [(k, v)]
  | (k', v') :: ps' =>
      if String.eqb k' k
      then (k, v) :: List.filter (fun kv => negb (String.eqb (fst kv) k)) ps'
      else (k', v') :: params_set k v ps'
  end.

(** JavaScript truthiness of a string and of a number. *)
Definition truthy_string (s : string) : bool :=
  match s with EmptyString => false | String _ _ => true end.

Definition truthy_number (n : Z) : bool := negb (n =? 0).

(** [v || d] for an optional string and for an optional number: the right
    operand is taken when the left is [undefined] or falsy. *)
Definition or_string (v : option string) (d : string) : string :=
  match v with
  | Some s => if truthy_string s then s else d
  | None => d
  end.

Definition or_number (v : option Z) (d : Z) : Z :=
  match v with
  | Some n => if truthy_number n then n else d
  | None => d
  end.

(** Lines 112-123: the request [fetchToken] sends. *)
Definition fetchToken_request (config : OAuthConfig) : TokenRequest :=
  let body := [("grant_type", "client_credentials");
               ("client_id", clientId config);
               ("client_secret", clientSecret config)] in
  let body :=
    match scope config with
    | Some sc => if truthy_string sc then params_set "scope" sc body else body
    | None => body
    end in
  {| rq_url := tokenUrl config;
     rq_method := "POST";
     rq_headers := [("Content-Type", "application/x-www-form-urlencoded")];
     rq_body := body |}.

(** [res.ok] *)
Definition tr_ok (res : TokenResponse) : bool :=
  (200 <=? tr_status res) && (tr_status res <=? 299).

(** The message of the error thrown at line 128. *)
Definition token_failed_message (status : Z) (err : string) : string :=
  "OAuth token failed (" +:+ pretty status +:+ "): " +:+ err.

(** Lines 134-138: the token built from the issuer's JSON at time [now]. *)
Definition token_of_json (now : Z) (data : TokenJson) : TokenData :=
  {| accessToken := access_token data;
     tokenType := or_string (token_type data) "Bearer";
     expiresAt := now + or_number (expires_in data) 3600 * 1000 |}.

(** Lines 119-138: how the promise of [fetchToken] settles, given the
    transport's reply and the value of [Date.now()] when the token is
    built. *)
Definition fetchToken_settle (now : Z) (reply : Reply TokenResponse)
  : Settled TokenData :=
  match reply with
  | Rejects cause => Rejected (TransportRejection cause)
  | Responds res =>
      if negb (tr_ok res)
      then Rejected (NewError (token_failed_message (tr_status res) (tr_text res)))
      else match tr_json res with
           | None => Rejected (BodyRejection "SyntaxError")
           | Some data => Fulfilled (token_of_json now data)
           end
  end.

(** The value of the [Authorization] header, lines 289 and 301. *)
Definition authorization_value (t : TokenData) : string :=
  tokenType t +:+ " " +:+ accessToken t.

(** ** The token cache and [getToken] *)

(** The values of [tokenCache]. [promise] names a call of [fetchToken] by
    its index in the store of such calls. *)
Record CacheEntry := {
  token : option TokenData;
  promise : option nat;
}.

(** How far a call of [fetchToken] has come. *)
Inductive FetchPhase :=
| Logging                        (* suspended at line 110: nothing sent yet *)
| Requested                      (* suspended at line 119: request in flight *)
| Done (r : Settled TokenData).  (* returned or threw *)

(** The variables of the [getToken] call that is suspended at line 163. *)
Record Frame := {
  fr_providerId : string;
  fr_existingToken : option TokenData;
}.

(** One call of [fetchToken]: its argument, its phase, and the frame of the
    [getToken] call that made it, until that call resumes. Only line 158
    calls [fetchToken], so there is one such frame per call. *)
Record Fetch := {
  f_config : OAuthConfig;
  f_phase : FetchPhase;
  f_frame : option Frame;
}.

(** The promise a call of [getToken] returns. *)
Inductive Acquisition :=
| Cached (t : TokenData)  (* line 149 *)
| Joined (p : nat)        (* line 154: the promise of the cache entry *)
| Started (p : nat).      (* lines 158-169: this call made fetch [p] *)

(** ** Requests through the interceptor *)

(** [input: RequestInfo | URL] *)
Inductive RequestInput :=
| InString (url : string)
| InURL (href : string)
| InRequest (url : string).

(** Lines 272-277. *)
Definition url_of (input : RequestInput) : string :=
  match input with
  | InString url => url
  | InURL href => href
  | InRequest url => url
  end.

(** What [init.headers] may be given as: the pairs of a record, of an
    array of pairs or of a [Headers] object, in their order. *)
Definition HeadersInit := list (string * string).

(** The header list of a [Headers] object. *)
Definition Headers := list (string * string).

(** [init?: RequestInit] *)
Record RequestInit := {
  ri_method : option string;
  ri_headers : HeadersInit;
  ri_body : option string;
}.

(** A response of a protected endpoint. *)
Record ApiResponse := {
  status : Z;
  body : string;
}.

(** ASCII lower case, for header names. *)
Definition lower_ascii (c : ascii) : ascii :=
  let n := N_of_ascii c in
  if ((65 <=? n) && (n <=? 90))%N then ascii_of_N (n + 32) else c.

Fixpoint lower (s : string) : string :=
  match s with
  | EmptyString => EmptyString
  | String c s' => String (lower_ascii c) (lower s')
  end.

Definition same_header (name : string) (h : string * string) : bool :=
  String.eqb (lower (fst h)) (lower name).

Fixpoint has_char (c : ascii) (s : string) : bool :=
  match s with
  | EmptyString => false
  | String c' s' => Ascii.eqb c' c || has_char c s'
  end.

Fixpoint all_chars (f : ascii -> bool) (s : string) : bool :=
  match s with
  | EmptyString => true
  | String c s' => f c && all_chars f s'
  end.

(** HTTP whitespace: tab, line feed, carriage return and space. *)
Definition http_whitespace (c : ascii) : bool :=
  Ascii.eqb c "009" || Ascii.eqb c "010" || Ascii.eqb c "013" || Ascii.eqb c " ".

Fixpoint trim_start (s : string) : string :=
  match s with
  | EmptyString => EmptyString
  | String c s' => if http_whitespace c then trim_start s' else s
  end.

Fixpoint trim_end (s : string) : string :=
  match s with
  | EmptyString => EmptyString
  | String c s' =>
      match trim_end s' with
      | EmptyString => if http_whitespace c then EmptyString else String c EmptyString
      | String c' t => String c (String c' t)
      end
  end.

(** A [Headers] object normalises a value before it stores it: leading
    and trailing HTTP whitespace is removed. *)
Definition normalize_value (value : string) : string :=
  trim_end (trim_start value).

(** [w] is [v] without its leading and trailing HTTP whitespace: [v] is
    [w] between two runs of whitespace, and [w] neither starts nor ends with
    whitespace. *)
Definition trimmed (v w : string) : Prop :=
  exists pre post,
    v = pre +:+ w +:+ post /\
    all_chars http_whitespace pre = true /\
    all_chars http_whitespace post = true /\
    (forall c w', w = String c w' -> http_whitespace c = false) /\
    (forall w' c, w = w' +:+ String c EmptyString -> http_whitespace c = false).

(** The characters of a header name: those of an HTTP token. *)
Definition token_char (c : ascii) : bool :=
  let n := N_of_ascii c in
  ((48 <=? n) && (n <=? 57))%N || ((65 <=? n) && (n <=? 90))%N
  || ((97 <=? n) && (n <=? 122))%N
  || has_char c "!#$%&'*+-.^_`|~".

(** A header name is a non-empty token. *)
Definition header_name_ok (name : string) : bool :=
  truthy_string name && all_chars token_char name.

(** What a header value may not hold: NUL, line feed, carriage return. *)
Definition forbidden (value : string) : bool :=
  has_char "000" value || has_char "010" value || has_char "013" value.

(** A normalised header value is valid when it holds none of them. *)
Definition header_value_ok (value : string) : bool := negb (forbidden value).

(** What [Headers.set] and the constructor do with a name and a value
    before they touch the header list: the value is normalised, then name
    and value are validated; [None] stands for the [TypeError] thrown when
    one of them is invalid. *)
Definition header_checked (name value : string) : option string :=
  let value := normalize_value value in
  if header_name_ok name && header_value_ok value then Some value else None.

(** Setting a header in a header list: header names match without regard
    to case; the first header of that name gets the value and the others
    are removed; without one the header is appended. *)
Fixpoint header_list_set (name value : string) (hs : Headers) : Headers :=
  match hs with
  | [] => [(name, value)]
  | h :: hs' =>
      if same_header name h
      then (fst h, value) :: List.filter (fun h' => negb (same_header name h')) hs'
      else h :: header_list_set name value hs'
  end.

(** [Headers.set]; [None] when it throws. *)
Definition headers_set (name value : string) (hs : Headers) : option Headers :=
  value' ← header_checked name value;
  Some (header_list_set name value' hs).

(** [Headers.get] *)
Definition headers_get (name : string) (hs : Headers) : option string :=
  snd <$> find (same_header name) hs.

(** [new Headers(pairs)]: each pair is appended after the same
    normalisation and validation; [None] when one of them throws. *)
Fixpoint headers_new (pairs : HeadersInit) : option Headers :=
  match pairs with
  | [] => Some []
  | (name, value) :: rest =>
      value' ← header_checked name value;
      hs ← headers_new rest;
      Some ((name, value') :: hs)
  end.

(** [init?.headers], no pairs when there is none. *)
Definition init_pairs (init : option RequestInit) : HeadersInit :=
  match init with
  | Some i => ri_headers i
  | None => []
  end.

(** [new Headers(init?.headers)] *)
Definition headers_of_init (init : option RequestInit) : option Headers :=
  headers_new (init_pairs init).



(** [{ ...init, headers }] *)
Definition init_with_headers (init : option RequestInit) (headers : Headers)
  : RequestInit :=
  match init with
  | Some i => {| ri_method := ri_method i; ri_headers := headers; ri_body := ri_body i |}
  | None => {| ri_method := None; ri_headers := headers; ri_body := None |}
  end.

(** A call of [originalFetch] for a request of the interceptor: the call
    [d] of the interceptor that made it and the two arguments. *)
Record Sent := {
  sent_by : nat;
  sent_input : RequestInput;
  sent_init : option RequestInit;
}.

(** Where a call of the interceptor is suspended, with the variables it
    holds there. *)
Inductive Pc :=
| AwaitToken (providerId : string) (config : ProviderEntry) (a : Acquisition)
    (* line 285 *)
| AwaitFirst (providerId : string) (config : ProviderEntry) (headers : Headers)
    (* line 292 *)
| AwaitNewToken (providerId : string) (config : ProviderEntry) (headers : Headers)
    (a : Acquisition)
    (* line 298 *)
| AwaitSecond   (* line 303: the call returned the promise of the resend *)
| AwaitPass     (* line 315: the call returned the promise of the transport *)
| Returned (r : Settled ApiResponse).

Record Call := {
  c_input : RequestInput;
  c_init : option RequestInit;
  c_pc : Pc;
}.

(** ** The shared state *)

Record State := {
  now : Z;                             (* [Date.now()] *)
  tokenCache : gmap string CacheEntry;
  fetches : list Fetch;                (* every call of [fetchToken] so far *)
  issued : list TokenRequest;          (* requests sent to token endpoints *)
  calls : list Call;                   (* every call of the interceptor so far *)
  sent : list Sent;                    (* requests sent by the interceptor *)
}.

Definition with_now (f : Z -> Z) (s : State) : State :=
  {| now := f (now s); tokenCache := tokenCache s; fetches := fetches s;
     issued := issued s; calls := calls s; sent := sent s |}.

Definition with_tokenCache (f : gmap string CacheEntry -> gmap string CacheEntry)
  (s : State) : State :=
  {| now := now s; tokenCache := f (tokenCache s); fetches := fetches s;
     issued := issued s; calls := calls s; sent := sent s |}.

Definition with_fetches (f : list Fetch -> list Fetch) (s : State) : State :=
  {| now := now s; tokenCache := tokenCache s; fetches := f (fetches s);
     issued := issued s; calls := calls s; sent := sent s |}.

Definition with_issued (f : list TokenRequest -> list TokenRequest) (s : State)
  : State :=
  {| now := now s; tokenCache := tokenCache s; fetches := fetches s;
     issued := f (issued s); calls := calls s; sent := sent s |}.

Definition with_calls (f : list Call -> list Call) (s : State) : State :=
  {| now := now s; tokenCache := tokenCache s; fetches := fetches s;
     issued := issued s; calls := f (calls s); sent := sent s |}.

Definition with_sent (f : list Sent -> list Sent) (s : State) : State :=
  {| now := now s; tokenCache := tokenCache s; fetches := fetches s;
     issued := issued s; calls := calls s; sent := f (sent s) |}.

(** The state when the module has been loaded. *)
Definition initial (t0 : Z) : State :=
  {| now := t0; tokenCache := ∅; fetches := []; issued := [];
     calls := []; sent := [] |}.

(** Lines 158-160: call [fetchToken], which suspends at its line 110, and
    store its promise beside the token the entry held. *)
Definition start_fetch (providerId : string) (config : OAuthConfig)
  (existingToken : option TokenData) (s : State) : State * Acquisition :=
  let p := length (fetches s) in
  let fr := {| fr_providerId := providerId;
               fr_existingToken := existingToken |} in
  let f := {| f_config := config; f_phase := Logging; f_frame := Some fr |} in
  (with_tokenCache
     (insert providerId {| token := existingToken; promise := Some p |})
     (with_fetches (fun fs => fs ++ [f]) s),
   Started p).

(** Line 148: [cached.token.expiresAt > Date.now() + 60000]. *)
Definition usable (s : State) (t : TokenData) : bool :=
  now s + 60000 <? expiresAt t.

(** Lines 145-160: [getToken] up to its first suspension. It returns the
    cached token, or the promise of the cache entry, or calls [fetchToken]
    and stores its promise. *)
Definition getToken (providerId : string) (config : OAuthConfig) (s : State)
  : State * Acquisition :=
  let cached := tokenCache s !! providerId in
  match cached ≫= token with
  | Some t =>
      if usable s t then (s, Cached t)
      else
        match cached ≫= promise with
        | Some p => (s, Joined p)
        | None => start_fetch providerId config (Some t) s
        end
  | None =>
      match cached ≫= promise with
      | Some p => (s, Joined p)
      | None => start_fetch providerId config None s
      end
  end.

(** Lines 163-169: the [getToken] call that made fetch [p] resumes when the
    promise has settled. It stores the new token, or puts back the token it
    found when it started, and empties the promise slot either way. *)
Definition getToken_resume (p : nat) (s : State) : option State :=
  f ← fetches s !! p;
  fr ← f_frame f;
  match f_phase f with
  | Done r =>
      let entry :=
        match r with
        | Fulfilled t => {| token := Some t; promise := None |}
        | Rejected e => {| token := fr_existingToken fr; promise := None |}
        end in
      let f' := {| f_config := f_config f; f_phase := f_phase f;
                   f_frame := None |} in
      Some (with_tokenCache (insert (fr_providerId fr) entry)
              (with_fetches (fun fs => <[p := f']> fs) s))
  | _ => None
  end.

(** What a caller that awaits the promise of a [getToken] call gets, once
    it is there. The call that made the fetch returns or rethrows after
    lines 164-168 have run. *)
Definition acquired (s : State) (a : Acquisition) : option (Settled TokenData) :=
  match a with
  | Cached t => Some (Fulfilled t)
  | Joined p =>
      f ← fetches s !! p;
      match f_phase f with Done r => Some r | _ => None end
  | Started p =>
      f ← fetches s !! p;
      match f_phase f, f_frame f with
      | Done r, None => Some r
      | _, _ => None
      end
  end.

(** ** The interceptor *)

(** Lines 280-281: the first provider, in the order of registration, whose
    [baseURL] the URL starts with. *)
Definition find_provider (providers : list (string * ProviderEntry))
  (url : string) : option (string * ProviderEntry) :=
  find (fun pc => String.prefix (baseURL (snd pc)) url) providers.

Definition push_call (c : Call) (s : State) : State :=
  with_calls (fun cs => cs ++ [c]) s.

Definition set_pc (d : nat) (pc : Pc) (s : State) : State :=
  with_calls
    (fun cs =>
       match cs !! d with
       | Some c => <[d := {| c_input := c_input c; c_init := c_init c; c_pc := pc |}]> cs
       | None => cs
       end) s.

(** [originalFetch(input, init)] on behalf of call [d]. *)
Definition send (d : nat) (input : RequestInput) (init : option RequestInit)
  (s : State) : State :=
  with_sent
    (fun l => l ++ [{| sent_by := d; sent_input := input; sent_init := init |}]) s.

(** Lines 271-285 and 315: a call of the interceptor up to its first
    suspension. *)
Definition interceptor (providers : list (string * ProviderEntry))
  (input : RequestInput) (init : option RequestInit) (s : State) : State :=
  let d := length (calls s) in
  match find_provider providers (url_of input) with
  | Some (providerId, config) =>
      let '(s1, a) := getToken providerId (oauth config) s in
      push_call {| c_input := input; c_init := init;
                   c_pc := AwaitToken providerId config a |} s1
  | None =>
      send d input init
        (push_call {| c_input := input; c_init := init; c_pc := AwaitPass |} s)
  end.

(** Lines 285-292 and 298-303: call [d] resumes with the outcome of the
    [getToken] call it awaits. When the [Headers] constructor of line 286 or
    [headers.set] of lines 287 and 299 throws, line 309 rethrows and the
    call rejects. *)
Definition interceptor_resume (d : nat) (s : State) : option State :=
  c ← calls s !! d;
  match c_pc c with
  | AwaitToken providerId config a =>
      r ← acquired s a;
      match r with
      | Fulfilled token =>
          match
            headers ← headers_of_init (c_init c);
            headers_set "Authorization" (authorization_value token) headers
          with
          | Some headers =>
              Some (send d (c_input c)
                      (Some (init_with_headers (c_init c) headers))
                      (set_pc d (AwaitFirst providerId config headers) s))
          | None => Some (set_pc d (Returned (Rejected HeaderTypeError)) s)
          end
      | Rejected e => Some (set_pc d (Returned (Rejected e)) s)
      end
  | AwaitNewToken providerId config headers a =>
      r ← acquired s a;
      match r with
      | Fulfilled newToken =>
          match headers_set "Authorization" (authorization_value newToken) headers
          with
          | Some headers =>
              Some (send d (c_input c)
                      (Some (init_with_headers (c_init c) headers))
                      (set_pc d AwaitSecond s))
          | None => Some (set_pc d (Returned (Rejected HeaderTypeError)) s)
          end
      | Rejected e => Some (set_pc d (Returned (Rejected e)) s)
      end
  | _ => None
  end.

(** How a promise of the transport settles. *)
Definition settle_reply (reply : Reply ApiResponse) : Settled ApiResponse :=
  match reply with
  | Rejects cause => Rejected (TransportRejection cause)
  | Responds res => Fulfilled res
  end.

(** Lines 292-306, and the promises returned at lines 303 and 315: the
    transport answers the request that call [d] has outstanding. *)
Definition interceptor_reply (d : nat) (reply : Reply ApiResponse) (s : State)
  : option State :=
  c ← calls s !! d;
  match c_pc c with
  | AwaitFirst providerId config headers =>
      match reply with
      | Rejects cause =>
          Some (set_pc d (Returned (Rejected (TransportRejection cause))) s)
      | Responds res =>
          if status res =? 401 then
            let '(s1, a) :=
              getToken providerId (oauth config)
                (with_tokenCache (delete providerId) s) in
            Some (set_pc d (AwaitNewToken providerId config headers a) s1)
          else Some (set_pc d (Returned (Fulfilled res)) s)
      end
  | AwaitSecond => Some (set_pc d (Returned (settle_reply reply)) s)
  | AwaitPass => Some (set_pc d (Returned (settle_reply reply)) s)
  | _ => None
  end.

(** ** The event loop *)

(** [fetchToken] call [p] passes line 119: the request goes out. *)
Definition fetchToken_send (p : nat) (s : State) : option State :=
  f ← fetches s !! p;
  match f_phase f with
  | Logging =>
      let f' := {| f_config := f_config f; f_phase := Requested;
                   f_frame := f_frame f |} in
      Some (with_issued (fun l => l ++ [fetchToken_request (f_config f)])
              (with_fetches (fun fs => <[p := f']> fs) s))
  | _ => None
  end.

(** Lines 119-138: the token endpoint answers call [p] of [fetchToken]. *)
Definition fetchToken_reply (p : nat) (reply : Reply TokenResponse) (s : State)
  : option State :=
  f ← fetches s !! p;
  match f_phase f with
  | Requested =>
      let f' := {| f_config := f_config f;
                   f_phase := Done (fetchToken_settle (now s) reply);
                   f_frame := f_frame f |} in
      Some (with_fetches (fun fs => <[p := f']> fs) s)
  | _ => None
  end.

(** What the event loop may run next: the clock moves, a caller calls
    [fetch], or one of the suspended blocks above runs. *)
Inductive Event :=
| Tick (dt : Z)                                   (* the wall clock moves *)
| Request (input : RequestInput) (init : option RequestInit)
                                                  (* [fetch(input, init)] *)
| TokenSend (p : nat)
| TokenReply (p : nat) (reply : Reply TokenResponse)
| GetTokenResume (p : nat)
| Resume (d : nat)
| ApiReply (d : nat) (reply : Reply ApiResponse).

(** One block runs; [None] when the block is not enabled in the state. *)
Definition step (providers : list (string * ProviderEntry)) (s : State)
  (ev : Event) : option State :=
  match ev with
  | Tick dt => Some (with_now (fun t => t + dt) s)
  | Request input init => Some (interceptor providers input init s)
  | TokenSend p => fetchToken_send p s
  | TokenReply p reply => fetchToken_reply p reply s
  | GetTokenResume p => getToken_resume p s
  | Resume d => interceptor_resume d s
  | ApiReply d reply => interceptor_reply d reply s
  end.

Fixpoint run (providers : list (string * ProviderEntry)) (s : State)
  (evs : list Event) : option State :=
  match evs with
  | [] => Some s
  | ev :: evs' =>
      match step providers s ev with
      | Some s' => run providers s' evs'
      | None => None
      end
  end.

(** The token requests of provider [providerId] that are in flight: sent
    and not answered. *)
Definition fetch_for (providerId : string) (f : Fetch) : bool :=
  match f_frame f with
  | Some fr => String.eqb (fr_providerId fr) providerId
  | None => false
  end.

Definition requested (f : Fetch) : bool :=
  match f_phase f with Requested => true | _ => false end.

Definition in_flight (providerId : string) (s : State) : nat :=
  length (List.filter (fun f => fetch_for providerId f && requested f) (fetches s)).

Definition pc_of (d : nat) (s : State) : option Pc := c_pc <$> calls s !! d.

(** ** Installing the interceptor *)

(** Function objects are compared by reference ([!==] at line 269), so a
    function is embedded as its reference, a number; an object made later
    gets the next free reference. *)
Record Host := {
  globalFetch : nat;        (* [globalThis.fetch] *)
  originalFetch : nat;      (* line 75: read once, when the module loads *)
  interceptors : list nat;  (* the closures made at line 271 *)
  next_ref : nat;           (* the next free reference *)
}.

(** Line 75, in a host whose [globalThis.fetch] is [fetch0]. *)
Definition load_module (fetch0 next0 : nat) : Host :=
  {| globalFetch := fetch0; originalFetch := fetch0; interceptors := [];
     next_ref := next0 |}.

(** Lines 268-319. *)
Definition installFetchInterceptor (h : Host) : Host :=
  if negb (Nat.eqb (globalFetch h) (originalFetch h)) then h
  else
    let interceptor := next_ref h in
    {| globalFetch := interceptor;
       originalFetch := originalFetch h;
       interceptors := interceptor :: interceptors h;
       next_ref := S (next_ref h) |}.

(** The function that a call of function [f] hands its request to: a
    closure of line 271 calls [originalFetch] (lines 292, 303 and 315, and
    line 119 for token requests); any other function is the transport
    itself. *)
Definition callee (h : Host) (f : nat) : option nat :=
  if existsb (Nat.eqb f) (interceptors h) then Some (originalFetch h) else None.

(** How many closures of line 271 a call of [f] passes through before it
    reaches the transport; [None] when [fuel] calls do not reach it. *)
Fixpoint wrapper_depth (fuel : nat) (h : Host) (f : nat) : option nat :=
  match fuel with
  | O => None
  | S fuel' =>
      match callee h f with
      | Some g => S <$> wrapper_depth fuel' h g
      | None => Some O
      end
  end.

(** Every reference in use names an object that exists. *)
Definition host_ok (h : Host) : Prop :=
  (globalFetch h < next_ref h)%nat /\ (originalFetch h < next_ref h)%nat /\
  Forall (fun w => originalFetch h < w < next_ref h)%nat (interceptors h).

(** ** Observations and invariants *)

(** The calls of [getToken] for [providerId] that are suspended at line
    163. *)
Definition suspended (providerId : string) (s : State) : nat :=
  length (List.filter (fetch_for providerId) (fetches s)).

(** The number of requests that call [d] of the interceptor has sent. *)
Definition sent_count (d : nat) (s : State) : nat :=
  length (List.filter (fun x => Nat.eqb (sent_by x) d) (sent s)).

(** Every suspended [getToken] call is the one whose fetch the cache entry
    of its provider names. *)
Definition slot_owner (s : State) : Prop :=
  forall p f fr,
    fetches s !! p = Some f -> f_frame f = Some fr ->
    tokenCache s !! fr_providerId fr
    = Some {| token := fr_existingToken fr; promise := Some p |}.

(** A [getToken] call resumes only after its fetch has settled. *)
Definition frames_ok (s : State) : Prop :=
  forall p f, fetches s !! p = Some f -> f_frame f = None ->
              exists r, f_phase f = Done r.

(** The requests a call has sent when it is suspended at [pc]. *)
Definition sends_at (pc : Pc) (n : nat) : Prop :=
  match pc with
  | AwaitToken _ _ _ => n = 0%nat
  | AwaitFirst _ _ _ => n = 1%nat
  | AwaitNewToken _ _ _ _ => n = 1%nat
  | AwaitSecond => n = 2%nat
  | AwaitPass => n = 1%nat
  | Returned _ => (n <= 2)%nat
  end.

Definition sends_ok (s : State) : Prop :=
  forall d,
    match calls s !! d with
    | Some c => sends_at (c_pc c) (sent_count d s)
    | None => sent_count d s = 0%nat
    end.

(** No protected endpoint answers 401. *)
Definition not_401 (ev : Event) : Prop :=
  match ev with
  | ApiReply _ (Responds res) => status res <> 401
  | _ => True
  end.

(** The events of callers that arrive while fetch [p] of [providerId] is
    pending: requests for that provider, the clock moving on, and the token
    request going out. *)
Definition arrival (providers : list (string * ProviderEntry))
  (providerId : string) (p : nat) (ev : Event) : Prop :=
  match ev with
  | Request input init =>
      exists cfg, find_provider providers (url_of input) = Some (providerId, cfg)
  | Tick dt => 0 <= dt
  | TokenSend q => q = p
  | _ => False
  end.

Definition joined (providerId : string) (p : nat) (c : Call) : Prop :=
  exists cfg, c_pc c = AwaitToken providerId cfg (Joined p).

(** What stays true from state [s1], in which fetch [p] has just been
    started, while callers arrive. *)
Definition joining (providerId : string) (config : OAuthConfig) (p : nat)
  (s1 s : State) : Prop :=
  now s1 <= now s /\
  tokenCache s = tokenCache s1 /\
  length (fetches s) = length (fetches s1) /\
  (exists f, fetches s !! p = Some f /\ f_config f = config /\
             ((f_phase f = Logging /\ issued s = issued s1) \/
              (f_phase f = Requested /\
               issued s = issued s1 ++ [fetchToken_request config]))) /\
  exists l, calls s = calls s1 ++ l /\ Forall (joined providerId p) l.


(** ** The defaults read as "when the field is omitted" *)



(** ** A registry and some runs *)

Definition gateway_oauth : OAuthConfig :=
  {| tokenUrl := "https://auth.example.com/oauth/token"; clientId := "id";
     clientSecret := "secret"; scope := None |}.

Definition gateway : ProviderEntry :=
  {| baseURL := "https://api.example.com/v1"; oauth := gateway_oauth |}.


Definition registry : list (string * ProviderEntry) := [("gateway", gateway)].

Definition models : RequestInput := InString "https://api.example.com/v1/models".

Definition elsewhere : RequestInput := InString "https://example.org/status".

Definition tok1 : TokenData :=
  {| accessToken := "tok1"; tokenType := "Bearer"; expiresAt := 3600000 |}.

Definition zero_lifetime : TokenJson :=
  {| access_token := "tok2"; token_type := None; expires_in := Some 0 |}.


Definition issuer_ok (tok : string) (life : Z) : Reply TokenResponse :=
  Responds {| tr_status := 200; tr_text := "";
              tr_json := Some {| access_token := tok; token_type := None;
                                 expires_in := Some life |} |}.

Definition issuer_down : Reply TokenResponse :=
  Responds {| tr_status := 503; tr_text := "down"; tr_json := None |}.

Definition issuer_denies : Reply TokenResponse :=
  Responds {| tr_status := 401; tr_text := "denied"; tr_json := None |}.

Definition unauthorized : Reply ApiResponse :=
  Responds {| status := 401; body := "expired" |}.

Definition state_after (evs : list Event) : State :=
  default (initial 0) (run registry (initial 0) evs).

(** The first request has started a fetch and the token request is out. *)
Definition fetch_sent : list Event := [Request models None; TokenSend 0].

(** The first request gets a token and is sent with it. *)
Definition warm_up : list Event :=
  fetch_sent ++ [TokenReply 0 (issuer_ok "tok1" 3600); GetTokenResume 0; Resume 0].

(** A second request is sent with the cached token; the first one is
    answered 401 and the token request of its refresh is out. *)
Definition first_rejected : list Event :=
  warm_up ++ [Request models None; Resume 1; ApiReply 0 unauthorized; TokenSend 1].

(** Then the second request is answered 401 as well. *)
Definition both_rejected : list Event :=
  first_rejected ++ [ApiReply 1 unauthorized; TokenSend 2].

(** The cached token comes within 59 seconds of its expiry. *)
Definition near_expiry : list Event :=
  fetch_sent ++ [TokenReply 0 (issuer_ok "tok1" 3600); GetTokenResume 0;
                 Tick 3541000].

(** A request then starts a refresh. *)
Definition refreshing : list Event := near_expiry ++ [Request models None].

(** The refresh is answered 503. *)
Definition refresh_fails : list Event := [TokenSend 1; TokenReply 1 issuer_down].

(** ** [stripJsonComments] *)

Definition quote : ascii := "034".
Definition backslash : ascii := "092".
Definition newline : ascii := "010".

(** The three flags of the loop; at most one of them is set. *)
Inductive Mode :=
| Plain           (* no flag set *)
| InStringLit     (* [inString] *)
| InLineComment   (* [inSingleLineComment] *)
| InBlockComment. (* [inMultiLineComment] *)

(** Lines 180-239: the loop from index [i] on, where [s] is
    [content.slice(i)] and [m] holds the flags; the result is what the loop
    appends to [result] from there. [char] is the head of [s] and
    [nextChar] the head of its tail, [undefined] when the tail is empty.
    The loop compares characters with the quote, the backslash, the slash,
    the star and the newline only, so a text is read here as the string of
    its bytes. *)
Fixpoint strip (m : Mode) (s : string) : string :=
  match s with
  | EmptyString => EmptyString
  | String char rest =>
      match m with
      | InLineComment =>
          if Ascii.eqb char newline then String char (strip Plain rest)
          else strip InLineComment rest
      | InBlockComment =>
          match rest with
          | String nextChar rest' =>
              if Ascii.eqb char "*" && Ascii.eqb nextChar "/"
              then strip Plain rest'
              else strip InBlockComment rest
          | EmptyString => strip InBlockComment rest
          end
      | InStringLit =>
          match rest with
          | String nextChar rest' =>
              if Ascii.eqb char backslash
              then String char (String nextChar (strip InStringLit rest'))
              else if Ascii.eqb char quote
                   then String char (strip Plain rest)
                   else String char (strip InStringLit rest)
          | EmptyString =>
              if Ascii.eqb char quote
              then String char (strip Plain rest)
              else String char (strip InStringLit rest)
          end
      | Plain =>
          if Ascii.eqb char quote then String char (strip InStringLit rest)
          else
            match rest with
            | String nextChar rest' =>
                if Ascii.eqb char "/" && Ascii.eqb nextChar "/"
                then strip InLineComment rest'
                else if Ascii.eqb char "/" && Ascii.eqb nextChar "*"
                     then strip InBlockComment rest'
                     else String char (strip Plain rest)
            | EmptyString => String char (strip Plain rest)
            end
      end
  end.

(** Lines 172-242. *)
Definition stripJsonComments (content : string) : string := strip Plain content.

(** The characters between the quotes of a string literal: no quote of
    their own, and every backslash followed by a character. *)
Fixpoint literal_body (s : string) : bool :=
  match s with
  | EmptyString => true
  | String c rest =>
      if Ascii.eqb c backslash
      then match rest with
           | String _ rest' => literal_body rest'
           | EmptyString => false
           end
      else negb (Ascii.eqb c quote) && literal_body rest
  end.

(** A text in which no [*] is followed by [/]. *)
Fixpoint no_close (s : string) : bool :=
  match s with
  | EmptyString => true
  | String c rest =>
      match rest with
      | String n _ => negb (Ascii.eqb c "*" && Ascii.eqb n "/") && no_close rest
      | EmptyString => true
      end
  end.

(** ** Registration, lines 321-354 *)

(** [options?: { baseURL?, oauth? }] *)
Record ProviderOptions := {
  o_baseURL : option string;
  o_oauth : option OAuthConfig;
}.

(** [interface ProviderConfig], without [models]. *)
Record ProviderConfig := {
  pc_npm : option string;
  pc_name : option string;
  pc_options : option ProviderOptions;
}.

(** [interface OpenCodeConfig]: [provider] holds the pairs in the order in
    which [Object.entries] yields them. *)
Record OpenCodeConfig := {
  provider : option (list (string * ProviderConfig));
}.

(** [Map.get] and [Map.set] on a map kept as the list of its entries in
    insertion order: setting a key that is there replaces its value where
    it stands, setting a new key appends it. *)
Definition map_get {A : Type} (k : string) (m : list (string * A)) : option A :=
  snd <$> find (fun kv => String.eqb (fst kv) k) m.

Fixpoint map_set {A : Type} (k : string) (v : A) (m : list (string * A))
  : list (string * A) :=
  match m with
  | [] => [(k, v)]
  | (k', v') :: m' =>
      if String.eqb k' k then (k, v) :: m' else (k', v') :: map_set k v m'
  end.

(** What line 338 lets through: [oauth && baseURL]. *)
Definition registrable (providerConfig : ProviderConfig) : option ProviderEntry :=
  let oauth := pc_options providerConfig ≫= o_oauth in
  let baseURL := pc_options providerConfig ≫= o_baseURL in
  match oauth, baseURL with
  | Some oa, Some b =>
      if truthy_string b then Some {| baseURL := b; oauth := oa |} else None
  | _, _ => None
  end.

(** Lines 335-344: the body of the loop. *)
Definition register (oauthProviders : list (string * ProviderEntry))
  (entry : string * ProviderConfig) : list (string * ProviderEntry) :=
  match registrable (snd entry) with
  | Some e => map_set (fst entry) e oauthProviders
  | None => oauthProviders
  end.

(** Lines 326-354: the plugin function once [loadConfig] has returned
    [config], on the registry and the host. *)
Definition OAuthProviderPlugin (config : option OpenCodeConfig)
  (st : list (string * ProviderEntry) * Host)
  : list (string * ProviderEntry) * Host :=
  match config ≫= provider with
  | None => st
  | Some entries =>
      let oauthProviders := fold_left register entries st.1 in
      (oauthProviders,
       if (0 <? length oauthProviders)%nat then installFetchInterceptor st.2
       else st.2)
  end.

(** The token requests that have been sent are those of the fetches that
    have passed line 119. *)
Definition past_logging (f : Fetch) : bool :=
  match f_phase f with Logging => false | _ => true end.

(** One token request for each fetch that has passed line 119. *)
Definition requests_ok (s : State) : Prop :=
  length (issued s) = length (List.filter past_logging (fetches s)).

(** ** Where providers, credentials and requests come from *)

(** The provider that a suspended call of the interceptor holds. *)
Definition pc_provider (pc : Pc) : option (string * ProviderEntry) :=
  match pc with
  | AwaitToken providerId config _ => Some (providerId, config)
  | AwaitFirst providerId config _ => Some (providerId, config)
  | AwaitNewToken providerId config _ _ => Some (providerId, config)
  | _ => None
  end.

(** [config] is the [oauth] block of a registered provider. *)
Definition registered_issuer (providers : list (string * ProviderEntry))
  (config : OAuthConfig) : Prop :=
  exists id e, In (id, e) providers /\ oauth e = config.

(** A request of the interceptor either carries the caller's [init] as it
    was or goes to a URL under the [baseURL] of a registered provider. *)
Definition sent_ok (providers : list (string * ProviderEntry)) (s : State)
  (x : Sent) : Prop :=
  exists c,
    calls s !! sent_by x = Some c /\ sent_input x = c_input c /\
    (sent_init x = c_init c \/
     exists id e, In (id, e) providers /\
                  String.prefix (baseURL e) (url_of (sent_input x)) = true).

(** Where the providers, configurations and requests in a state come
    from. *)
Definition provenance (providers : list (string * ProviderEntry)) (s : State)
  : Prop :=
  (forall d c id cfg,
      calls s !! d = Some c -> pc_provider (c_pc c) = Some (id, cfg) ->
      find_provider providers (url_of (c_input c)) = Some (id, cfg)) /\
  Forall (fun f => registered_issuer providers (f_config f)) (fetches s) /\
  Forall (fun rq => exists config, registered_issuer providers config /\
                                   rq = fetchToken_request config) (issued s) /\
  Forall (sent_ok providers s) (sent s).

(** A call of [fetchToken] with [config] has returned [t]. *)
Definition obtained (s : State) (config : OAuthConfig) (t : TokenData) : Prop :=
  exists q f,
    fetches s !! q = Some f /\ f_config f = config /\
    f_phase f = Done (Fulfilled t).

(** What a [getToken] call for a provider with [config] hands to its
    caller: a token obtained with [config], or the promise of a call of
    [fetchToken] with [config]. *)
Definition acq_ok (s : State) (config : OAuthConfig) (a : Acquisition) : Prop :=
  match a with
  | Cached t => obtained s config t
  | Joined p => exists f, fetches s !! p = Some f /\ f_config f = config
  | Started p => exists f, fetches s !! p = Some f /\ f_config f = config
  end.

(** The [getToken] call that a suspended call of the interceptor awaits. *)
Definition pc_acquisition (pc : Pc) : option Acquisition :=
  match pc with
  | AwaitToken _ _ a => Some a
  | AwaitNewToken _ _ _ a => Some a
  | _ => None
  end.

(** A request to a URL that matches a provider holds, in its
    [Authorization] header, a token obtained with the [oauth] block of that
    provider: [tokenType], a space and [accessToken], trimmed as a
    [Headers] object stores it. *)
Definition carries_token (providers : list (string * ProviderEntry)) (s : State)
  (x : Sent) : Prop :=
  forall id e,
    find_provider providers (url_of (sent_input x)) = Some (id, e) ->
    exists t init value,
      sent_init x = Some init /\
      headers_get "Authorization" (ri_headers init) = Some value /\
      trimmed (authorization_value t) value /\
      obtained s (oauth e) t.

(** Every token in the state is with the provider it was obtained for. *)
Definition token_origin (providers : list (string * ProviderEntry)) (s : State)
  : Prop :=
  (forall id ce t,
      tokenCache s !! id = Some ce -> token ce = Some t ->
      exists e, In (id, e) providers /\ obtained s (oauth e) t) /\
  (forall id ce p,
      tokenCache s !! id = Some ce -> promise ce = Some p ->
      exists e, In (id, e) providers /\ acq_ok s (oauth e) (Joined p)) /\
  (forall q f fr,
      fetches s !! q = Some f -> f_frame f = Some fr ->
      exists e, In (fr_providerId fr, e) providers /\ f_config f = oauth e /\
                forall t, fr_existingToken fr = Some t -> obtained s (oauth e) t) /\
  (forall d c id cfg a,
      calls s !! d = Some c -> pc_provider (c_pc c) = Some (id, cfg) ->
      pc_acquisition (c_pc c) = Some a -> acq_ok s (oauth cfg) a) /\
  Forall (carries_token providers s) (sent s).

(** The calls of [fetchToken] of [s] are there in [s'], with their
    arguments and, when they have returned, their results. *)
Definition fetches_grow (s s' : State) : Prop :=
  forall q f,
    fetches s !! q = Some f ->
    exists f', fetches s' !! q = Some f' /\ f_config f' = f_config f /\
               forall r, f_phase f = Done r -> f_phase f' = Done r.

(** ** The entries of a configuration *)

(** What the registry may hold. *)
Definition registry_ok (reg : list (string * ProviderEntry)) : Prop :=
  NoDup (map fst reg) /\ forall id e, In (id, e) reg -> baseURL e <> "".

(** The entries that line 338 lets through, in their order. *)
Definition registrable_entries (entries : list (string * ProviderConfig))
  : list (string * ProviderEntry) :=
  omap (fun entry => pair (fst entry) <$> registrable (snd entry)) entries.

(** ** More scenarios *)

(** A configuration with an entry without options and the gateway. *)
Definition sample_config : OpenCodeConfig :=
  {| provider :=
       Some [("bare", {| pc_npm := None; pc_name := None; pc_options := None |});
             ("gateway",
              {| pc_npm := None; pc_name := None;
                 pc_options := Some {| o_baseURL := Some (baseURL gateway);
                                       o_oauth := Some gateway_oauth |} |})] |}.

(** The first request is answered 401 and the issuer denies the refresh. *)
Definition refresh_denied : list Event :=
  warm_up ++ [ApiReply 0 unauthorized; TokenSend 1; TokenReply 1 issuer_denies;
              GetTokenResume 1; Resume 0].




(** The issuer answers with a lifetime of 30 seconds. *)
Definition short_lived : list Event :=
  fetch_sent ++ [TokenReply 0 (issuer_ok "tok1" 30); GetTokenResume 0].

(** Goals that are closed by running the definitions. *)
Ltac by_running := repeat apply conj; vm_compute; reflexivity.

(** The two outcomes of the [Headers] constructor and of [Headers.set] in
    a step [H] of a call of the interceptor. *)
Ltac case_headers H :=
  repeat match type of H with
         | context [headers_of_init ?i] =>
             destruct (headers_of_init i) as [?hs|] eqn:?Hnew;
             cbn -[headers_set headers_of_init] in H
         | context [headers_set ?n ?v ?h] =>
             destruct (headers_set n v h) as [?hs|] eqn:?Hset;
             cbn -[headers_set headers_of_init] in H
         end.

(** * Theorems *)

(** ** [fetchToken] *)

Lemma tr_ok_true res : 200 <= tr_status res <= 299 -> tr_ok res = true.
Proof. unfold tr_ok. intros H. lia. Qed.




(** C10: an issuer response whose [expires_in] is present and [0] gets the
    default lifetime: [expiresAt] is the time of the fetch plus 3600
    seconds, and the fetch settles exactly as it does when [expires_in] is
    absent. *)
Theorem zero_lifetime_is_default (now st : Z) (text tok : string)
    (tt : option string) :
  200 <= st <= 299 ->
  let answer (life : option Z) :=
    Responds {| tr_status := st; tr_text := text;
                tr_json := Some {| access_token := tok; token_type := tt;
                                   expires_in := life |} |} in
  fetchToken_settle now (answer (Some 0))
  = Fulfilled {| accessToken := tok; tokenType := or_string tt "Bearer";
                 expiresAt := now + 3600 * 1000 |} /\
  fetchToken_settle now (answer (Some 0)) = fetchToken_settle now (answer None).
Proof.
  intros Hst answer. subst answer. unfold fetchToken_settle.
  rewrite !tr_ok_true by exact Hst. split; reflexivity.
Qed.

Lemma zero_lifetime_is_default_witness :
  fetchToken_settle 1000
    (Responds {| tr_status := 200; tr_text := "";
                 tr_json := Some zero_lifetime |})
  = Fulfilled {| accessToken := "tok2"; tokenType := "Bearer";
                 expiresAt := 3601000 |}.
Proof.
  exact (proj1 (zero_lifetime_is_default 1000 200 "" "tok2" None ltac:(lia))).
Defined.

(** *** The message of a failed fetch determines status and body *)









(** ** [getToken] *)

Lemma usable_spec s t : usable s t = true <-> now s + 60000 < expiresAt t.
Proof. unfold usable. apply Z.ltb_lt. Qed.

Lemma getToken_result providerId config s :
  (exists t, getToken providerId config s = (s, Cached t)) \/
  (exists p, getToken providerId config s = (s, Joined p)) \/
  (tokenCache s !! providerId ≫= promise = None /\
   getToken providerId config s
   = start_fetch providerId config (tokenCache s !! providerId ≫= token) s).
Proof.
  unfold getToken.
  destruct (tokenCache s !! providerId ≫= token) as [t|].
  - destruct (usable s t); [left; eauto|].
    destruct (tokenCache s !! providerId ≫= promise); [right; left; eauto|].
    right; right; split; reflexivity.
  - destruct (tokenCache s !! providerId ≫= promise); [right; left; eauto|].
    right; right; split; reflexivity.
Qed.

Lemma getToken_after_delete providerId config s :
  getToken providerId config (with_tokenCache (delete providerId) s)
  = start_fetch providerId config None (with_tokenCache (delete providerId) s).
Proof. unfold getToken. cbn. rewrite lookup_delete_eq. reflexivity. Qed.

Lemma getToken_fetches providerId config s :
  exists l, fetches (getToken providerId config s).1 = fetches s ++ l.
Proof.
  destruct (getToken_result providerId config s) as [[t E]|[[p E]|[_ E]]];
    rewrite E.
  - exists []. cbn. rewrite app_nil_r. reflexivity.
  - exists []. cbn. rewrite app_nil_r. reflexivity.
  - eexists. cbn. reflexivity.
Qed.

Lemma getToken_calls_sent providerId config s :
  calls (getToken providerId config s).1 = calls s /\
  sent (getToken providerId config s).1 = sent s.
Proof.
  destruct (getToken_result providerId config s) as [[t E]|[[q E]|[_ E]]];
    rewrite E; split; reflexivity.
Qed.

(** A call that starts a fetch leaves the token it found in the entry,
    a token that is not usable, and puts the new promise beside it. *)
Lemma getToken_started providerId config s0 s1 p :
  getToken providerId config s0 = (s1, Started p) ->
  let prior := tokenCache s0 !! providerId ≫= token in
  p = length (fetches s0) /\
  now s1 = now s0 /\
  tokenCache s1 !! providerId = Some {| token := prior; promise := Some p |} /\
  (forall t, prior = Some t -> expiresAt t <= now s0 + 60000) /\
  fetches s1 !! p = Some {| f_config := config; f_phase := Logging;
                            f_frame := Some {| fr_providerId := providerId;
                                               fr_existingToken := prior |} |}.
Proof.
  intros H prior. subst prior. unfold getToken in H.
  destruct (tokenCache s0 !! providerId ≫= token) as [t|] eqn:Ht.
  - destruct (usable s0 t) eqn:Hu; [discriminate|].
    destruct (tokenCache s0 !! providerId ≫= promise); [discriminate|].
    cbn in H. injection H as <- <-. cbn.
    split; [reflexivity|]. split; [reflexivity|].
    split; [apply lookup_insert_eq|]. split.
    + intros t' [= <-]. unfold usable in Hu. lia.
    + rewrite lookup_app_r by lia. rewrite Nat.sub_diag. reflexivity.
  - destruct (tokenCache s0 !! providerId ≫= promise); [discriminate|].
    cbn in H. injection H as <- <-. cbn.
    split; [reflexivity|]. split; [reflexivity|].
    split; [apply lookup_insert_eq|]. split; [discriminate|].
    rewrite lookup_app_r by lia. rewrite Nat.sub_diag. reflexivity.
Qed.

(** A call that finds a promise in the entry and no usable token joins
    it. *)
Lemma getToken_joins providerId config s ex p :
  tokenCache s !! providerId = Some {| token := ex; promise := Some p |} ->
  (forall t, ex = Some t -> expiresAt t <= now s + 60000) ->
  getToken providerId config s = (s, Joined p).
Proof.
  intros He Hex. unfold getToken. rewrite He. cbn.
  destruct ex as [t|]; [|reflexivity].
  specialize (Hex t eq_refl). unfold usable.
  destruct (Z.ltb_spec (now s + 60000) (expiresAt t)); [lia|reflexivity].
Qed.

(** The claim of C2 fails where it says that a token 59 seconds from its
    expiry triggers a new fetch: in a state that a run reaches, with the
    cached token at [now + 59s] and a refresh pending, [getToken] returns
    the pending promise and starts nothing. *)
Lemma expiry_margin_counterexample :
  exists (s : State),
    run registry (initial 0) refreshing = Some s /\
    tokenCache s !! "gateway" ≫= token = Some tok1 /\
    expiresAt tok1 = now s + 59000 /\
    getToken "gateway" gateway_oauth s = (s, Joined 1).
Proof. exists (state_after refreshing). by_running. Qed.

(** C2, amended: for a provider with a cached token, [getToken] returns
    that token, with no fetch and no change of state, iff its [expiresAt]
    exceeds the current time plus 60 seconds; so a token with
    [expiresAt = now + 61s] is returned with no fetch. A token that is not
    usable, such as one with [expiresAt = now + 59s], is never returned
    from the cache: [getToken] returns the promise of the pending fetch
    when the entry holds one, and otherwise starts a new fetch, keeping
    the token in the entry beside the new promise. *)
Theorem expiry_margin (providerId : string) (config : OAuthConfig) (s : State)
    (t : TokenData) :
  tokenCache s !! providerId ≫= token = Some t ->
  (getToken providerId config s = (s, Cached t) <-> now s + 60000 < expiresAt t) /\
  (expiresAt t = now s + 61000 -> getToken providerId config s = (s, Cached t)) /\
  (expiresAt t <= now s + 60000 ->
   match tokenCache s !! providerId ≫= promise with
   | Some p => getToken providerId config s = (s, Joined p)
   | None =>
       exists s',
         getToken providerId config s = (s', Started (length (fetches s))) /\
         fetches s' =
           fetches s ++
             [{| f_config := config; f_phase := Logging;
                 f_frame := Some {| fr_providerId := providerId;
                                    fr_existingToken := Some t |} |}] /\
         tokenCache s' =
           <[providerId := {| token := Some t;
                              promise := Some (length (fetches s)) |}]>
             (tokenCache s)
   end) /\
  (expiresAt t = now s + 59000 ->
   forall s' t', getToken providerId config s <> (s', Cached t')).
Proof.
  intros Ht.
  pose proof (usable_spec s t) as Hu.
  unfold getToken. rewrite Ht.
  destruct (usable s t) eqn:E.
  - assert (now s + 60000 < expiresAt t) by (apply Hu; reflexivity).
    repeat split; try (intros; lia); auto.
  - assert (~ now s + 60000 < expiresAt t) by (rewrite <- Hu; discriminate).
    split; [|split; [|split]].
    + split; [|intros; lia].
      destruct (tokenCache s !! providerId ≫= promise); discriminate.
    + intros; lia.
    + intros _. destruct (tokenCache s !! providerId ≫= promise); [reflexivity|].
      eexists. split; [reflexivity|]. split; reflexivity.
    + intros _ s' t'.
      destruct (tokenCache s !! providerId ≫= promise); discriminate.
Qed.

Lemma expiry_margin_witness :
  getToken "gateway" gateway_oauth (state_after warm_up)
  = (state_after warm_up, Cached tok1).
Proof.
  apply (proj2 (proj1 (expiry_margin "gateway" gateway_oauth (state_after warm_up)
                         tok1 ltac:(vm_compute; reflexivity)))).
  vm_compute. reflexivity.
Defined.

(** ** Lookups after the updates of one block *)

Lemma set_pc_lookup d pc s c :
  calls s !! d = Some c ->
  calls (set_pc d pc s) !! d
  = Some {| c_input := c_input c; c_init := c_init c; c_pc := pc |}.
Proof.
  intros H. unfold set_pc. cbn. rewrite H.
  apply list_lookup_insert_eq. eapply lookup_lt_Some, H.
Qed.

Lemma set_pc_lookup_ne d d' pc s :
  d <> d' -> calls (set_pc d pc s) !! d' = calls s !! d'.
Proof.
  intros Hne. unfold set_pc. cbn.
  destruct (calls s !! d); [|reflexivity].
  apply list_lookup_insert_ne. exact Hne.
Qed.

Lemma pc_of_set_pc d pc s c :
  calls s !! d = Some c -> pc_of d (set_pc d pc s) = Some pc.
Proof. intros H. unfold pc_of. rewrite (set_pc_lookup _ _ _ _ H). reflexivity. Qed.

Lemma sent_count_send d d' input init s :
  sent_count d' (send d input init s)
  = (sent_count d' s + if Nat.eqb d d' then 1 else 0)%nat.
Proof.
  unfold sent_count, send. cbn. rewrite List.filter_app, length_app. cbn.
  destruct (Nat.eqb d d'); reflexivity.
Qed.

(** *** Header values *)

Lemma append_cons (a : ascii) (s t : string) :
  String a s +:+ t = String a (s +:+ t).
Proof. reflexivity. Qed.

Lemma append_nil (t : string) : EmptyString +:+ t = t.
Proof. reflexivity. Qed.

Lemma snoc_not_empty (w : string) (c : ascii) :
  w +:+ String c EmptyString = EmptyString -> False.
Proof. destruct w; discriminate. Qed.

Lemma trim_start_spec (s : string) :
  exists pre,
    s = pre +:+ trim_start s /\ all_chars http_whitespace pre = true /\
    forall c w', trim_start s = String c w' -> http_whitespace c = false.
Proof.
  induction s as [|a s (pre & Hs & Hpre & Hfirst)].
  - exists EmptyString. repeat split. discriminate.
  - simpl trim_start. destruct (http_whitespace a) eqn:Ea.
    + exists (String a pre). split; [rewrite ?append_cons, ?append_nil; f_equal; exact Hs|].
      split; [simpl; rewrite Ea, Hpre; reflexivity|exact Hfirst].
    + exists EmptyString. repeat split. intros c w' [= <- _]. exact Ea.
Qed.

Lemma trim_end_spec (s : string) :
  exists post,
    s = trim_end s +:+ post /\ all_chars http_whitespace post = true /\
    (forall w' c, trim_end s = w' +:+ String c EmptyString ->
                  http_whitespace c = false) /\
    (forall c s', s = String c s' -> http_whitespace c = false ->
                  exists t, trim_end s = String c t).
Proof.
  induction s as [|a s (post & Hs & Hpost & Hlast & _)].
  - exists EmptyString. repeat split; try discriminate.
    intros w' c H. symmetry in H. destruct (snoc_not_empty _ _ H).
  - simpl trim_end. destruct (trim_end s) as [|c' t] eqn:Et.
    + rewrite append_nil in Hs. destruct (http_whitespace a) eqn:Ea.
      * exists (String a post). split; [rewrite ?append_cons, ?append_nil; f_equal; exact Hs|].
        split; [simpl; rewrite Ea, Hpost; reflexivity|]. split.
        { intros w' c H. symmetry in H. destruct (snoc_not_empty _ _ H). }
        intros c s' [= <- _] Hc. congruence.
      * exists post. split; [rewrite ?append_cons, ?append_nil; f_equal; exact Hs|].
        split; [exact Hpost|]. split.
        { intros w' c H. destruct w' as [|x w']; rewrite ?append_cons, ?append_nil in H.
          - injection H as <-. exact Ea.
          - injection H as _ H. destruct (snoc_not_empty _ _ (eq_sym H)). }
        intros c s' [= <- _] _. eauto.
    + exists post. split; [rewrite ?append_cons, ?append_nil; f_equal; exact Hs|].
      split; [exact Hpost|]. split.
      * intros w' c H. destruct w' as [|x w']; rewrite ?append_cons, ?append_nil in H; [discriminate|].
        injection H as _ H. exact (Hlast w' c H).
      * intros c s' [= <- _] _. eauto.
Qed.

(** The value that a [Headers] object stores is the value without its
    leading and trailing HTTP whitespace. *)
Lemma normalize_value_trimmed (v : string) : trimmed v (normalize_value v).
Proof.
  unfold normalize_value.
  destruct (trim_start_spec v) as (pre & Hv & Hpre & Hfirst).
  destruct (trim_end_spec (trim_start v)) as (post & Hts & Hpost & Hlast & Hkeep).
  exists pre, post. split; [rewrite <- Hts; exact Hv|].
  split; [exact Hpre|]. split; [exact Hpost|]. split; [|exact Hlast].
  intros c w' Hw. rewrite Hw, append_cons in Hts. exact (Hfirst c _ Hts).
Qed.

Lemma trim_start_whitespace (pre s : string) :
  all_chars http_whitespace pre = true -> trim_start (pre +:+ s) = trim_start s.
Proof.
  induction pre as [|a pre IH]; [reflexivity|].
  intros H. simpl in H. apply andb_true_iff in H as [Ha H].
  rewrite append_cons. simpl trim_start. rewrite Ha. exact (IH H).
Qed.

Lemma trim_end_whitespace (post : string) :
  all_chars http_whitespace post = true -> trim_end post = EmptyString.
Proof.
  induction post as [|a post IH]; simpl; [reflexivity|].
  intros H. apply andb_true_iff in H as [Ha H]. rewrite (IH H), Ha. reflexivity.
Qed.

Lemma trim_end_fixed (w : string) :
  (forall w' c, w = w' +:+ String c EmptyString -> http_whitespace c = false) ->
  trim_end w = w.
Proof.
  induction w as [|a w IH]; intros Hlast; [reflexivity|].
  simpl trim_end. rewrite IH.
  - destruct w as [|c' t]; [|reflexivity].
    rewrite (Hlast EmptyString a eq_refl). reflexivity.
  - intros w' c ->. apply (Hlast (String a w') c). reflexivity.
Qed.

Lemma trim_end_append (w post : string) :
  all_chars http_whitespace post = true ->
  trim_end w = w -> trim_end (w +:+ post) = w.
Proof.
  intros Hpost. induction w as [|a w IH]; intros Hw.
  - rewrite append_nil. apply trim_end_whitespace. exact Hpost.
  - simpl in Hw. rewrite append_cons. simpl trim_end.
    destruct (trim_end w) as [|c' t] eqn:Et.
    + destruct (http_whitespace a) eqn:Ea; [discriminate|].
      injection Hw as <-. rewrite append_nil.
      rewrite (trim_end_whitespace post Hpost).
      reflexivity.
    + injection Hw as Hw. rewrite IH by exact Hw.
      rewrite <- Hw. reflexivity.
Qed.

(** Trimming has one result. *)
Lemma trimmed_normalize_value (v w : string) :
  trimmed v w -> w = normalize_value v.
Proof.
  intros (pre & post & -> & Hpre & Hpost & Hfirst & Hlast).
  unfold normalize_value. rewrite trim_start_whitespace by exact Hpre.
  destruct w as [|c w'].
  - rewrite append_nil. simpl. assert (H : trim_start post = EmptyString).
    { clear Hfirst Hlast. induction post as [|a post IH]; [reflexivity|].
      simpl in Hpost |- *. apply andb_true_iff in Hpost as [Ha Hpost].
      rewrite Ha. exact (IH Hpost). }
    rewrite H. reflexivity.
  - rewrite append_cons. simpl trim_start. rewrite (Hfirst c w' eq_refl).
    rewrite <- append_cons.
    symmetry. apply trim_end_append; [exact Hpost|].
    apply trim_end_fixed. exact Hlast.
Qed.

(** *** Header lists *)

Lemma header_list_get_set name value hs :
  headers_get name (header_list_set name value hs) = Some value.
Proof.
  unfold headers_get. induction hs as [|h hs IH]; cbn.
  - unfold same_header. cbn. rewrite String.eqb_refl. reflexivity.
  - destruct (same_header name h) eqn:Hh; cbn.
    + unfold same_header in *. cbn. rewrite Hh. reflexivity.
    + rewrite Hh. exact IH.
Qed.

Lemma same_header_set name h value :
  same_header name (fst h, value) = same_header name h.
Proof. reflexivity. Qed.

Lemma filter_others_twice name (hs : Headers) :
  List.filter (fun h => negb (same_header name h))
    (List.filter (fun h => negb (same_header name h)) hs)
  = List.filter (fun h => negb (same_header name h)) hs.
Proof.
  induction hs as [|h hs IH]; [reflexivity|].
  cbn -[same_header]. destruct (same_header name h) eqn:E; cbn -[same_header]; [exact IH|].
  rewrite E. cbn -[same_header]. rewrite IH. reflexivity.
Qed.

Lemma filter_same_of_others name (hs : Headers) :
  List.filter (same_header name)
    (List.filter (fun h => negb (same_header name h)) hs) = [].
Proof.
  induction hs as [|h hs IH]; [reflexivity|].
  cbn -[same_header]. destruct (same_header name h) eqn:E; cbn -[same_header]; [exact IH|].
  rewrite E. exact IH.
Qed.

(** Setting a header leaves the headers of other names as they are, in
    their order, and leaves exactly one header of the name. *)
Lemma header_list_set_others name value hs :
  List.filter (fun h => negb (same_header name h)) (header_list_set name value hs)
  = List.filter (fun h => negb (same_header name h)) hs.
Proof.
  induction hs as [|h hs IH]; cbn -[same_header].
  - unfold same_header. cbn. rewrite String.eqb_refl. reflexivity.
  - destruct (same_header name h) eqn:E; cbn -[same_header].
    + rewrite same_header_set, E. cbn -[same_header]. apply filter_others_twice.
    + rewrite E. cbn -[same_header]. rewrite IH. reflexivity.
Qed.

Lemma header_list_set_once name value hs :
  List.filter (same_header name) (header_list_set name value hs)
  = [(match find (same_header name) hs with
      | Some h => fst h
      | None => name
      end, value)].
Proof.
  induction hs as [|h hs IH]; cbn -[same_header].
  - unfold same_header. cbn. rewrite String.eqb_refl. reflexivity.
  - destruct (same_header name h) eqn:E; cbn -[same_header].
    + rewrite same_header_set, E. rewrite filter_same_of_others. reflexivity.
    + rewrite E. exact IH.
Qed.

(** *** [Headers.set] and the constructor *)

Lemma ri_headers_with init hs : ri_headers (init_with_headers init hs) = hs.
Proof. destruct init; reflexivity. Qed.

Lemma header_checked_trimmed (name raw value : string) :
  trimmed raw value ->
  header_checked name raw
  = if header_name_ok name && negb (forbidden value) then Some value else None.
Proof. intros H. apply trimmed_normalize_value in H. subst value. reflexivity. Qed.

Lemma headers_set_trimmed (raw value : string) (hs : Headers) :
  trimmed raw value ->
  headers_set "Authorization" raw hs
  = if forbidden value then None
    else Some (header_list_set "Authorization" value hs).
Proof.
  intros H. unfold headers_set. rewrite (header_checked_trimmed _ _ _ H).
  change (header_name_ok "Authorization") with true.
  destruct (forbidden value); reflexivity.
Qed.

(** [headers.set("Authorization", raw)] throws exactly when the trimmed
    value holds a NUL, a line feed or a carriage return; otherwise the
    header list holds the trimmed value under that name, once, and its other
    headers are untouched. *)
Lemma headers_set_authorization (raw value : string) (hs : Headers) :
  trimmed raw value ->
  (forbidden value = true -> headers_set "Authorization" raw hs = None) /\
  (forbidden value = false ->
   exists hs',
     headers_set "Authorization" raw hs = Some hs' /\
     headers_get "Authorization" hs' = Some value /\
     length (List.filter (same_header "Authorization") hs') = 1%nat /\
     List.filter (fun h => negb (same_header "Authorization" h)) hs'
     = List.filter (fun h => negb (same_header "Authorization" h)) hs).
Proof.
  intros H. rewrite (headers_set_trimmed raw value hs H). split; intros ->.
  - reflexivity.
  - eexists. split; [reflexivity|]. split; [apply header_list_get_set|].
    split; [rewrite header_list_set_once; reflexivity|].
    apply header_list_set_others.
Qed.

Lemma headers_set_get (raw : string) (hs hs' : Headers) :
  headers_set "Authorization" raw hs = Some hs' ->
  exists value, trimmed raw value /\ headers_get "Authorization" hs' = Some value.
Proof.
  pose proof (normalize_value_trimmed raw) as H.
  rewrite (headers_set_trimmed raw _ hs H).
  destruct (forbidden (normalize_value raw)); [discriminate|].
  intros [= <-]. eexists. split; [exact H|]. apply header_list_get_set.
Qed.



Lemma find_provider_none providers url :
  (forall id cfg, In (id, cfg) providers -> String.prefix (baseURL cfg) url = false) ->
  find_provider providers url = None.
Proof.
  intros H. unfold find_provider.
  induction providers as [|[id cfg] ps IH]; [reflexivity|].
  cbn. rewrite (H id cfg) by (left; reflexivity).
  apply IH. intros id' cfg' Hin. apply (H id' cfg'). right. exact Hin.
Qed.

Lemma returned_is_final d s r :
  pc_of d s = Some (Returned r) ->
  interceptor_resume d s = None /\
  forall reply, interceptor_reply d reply s = None.
Proof.
  unfold pc_of, interceptor_resume, interceptor_reply. intros H.
  destruct (calls s !! d) as [c|]; [|discriminate].
  cbn in *. injection H as ->. split; reflexivity.
Qed.

(** ** Invariants of the event loop *)

Section Runs.

Variable providers : list (string * ProviderEntry).

(** A property that every step keeps, under a condition on the events,
    holds at the end of a run. *)
Lemma run_invariant (P : State -> Prop) (Q : Event -> Prop) :
  (forall s ev s', step providers s ev = Some s' -> Q ev -> P s -> P s') ->
  forall evs s s',
    run providers s evs = Some s' -> Forall Q evs -> P s -> P s'.
Proof.
  intros Hstep. induction evs as [|ev evs IH]; intros s s' Hrun Hall HP.
  - injection Hrun as <-. exact HP.
  - cbn in Hrun. destruct (step providers s ev) as [s1|] eqn:E; [|discriminate].
    inversion Hall as [|? ? Hev Hrest]; subst.
    eapply IH; [exact Hrun|exact Hrest|]. eapply Hstep; eassumption.
Qed.

Lemma Forall_always (Q : Event -> Prop) (evs : list Event) :
  (forall ev, Q ev) -> Forall Q evs.
Proof. intros H. induction evs; constructor; auto. Qed.

(** *** The frame of a suspended [getToken] call is its own *)

Lemma step_keeps_frame s ev s' p f :
  step providers s ev = Some s' ->
  ev <> GetTokenResume p ->
  fetches s !! p = Some f ->
  exists f', fetches s' !! p = Some f' /\
             f_frame f' = f_frame f /\ f_config f' = f_config f.
Proof.
  intros Hstep Hev Hf.
  destruct ev as [dt|input init|q|q reply|q|d|d reply]; cbn in Hstep.
  - injection Hstep as <-. exists f. auto.
  - injection Hstep as <-. unfold interceptor.
    destruct (find_provider providers (url_of input)) as [[id cfg]|].
    + destruct (getToken_fetches id (oauth cfg) s) as [l Hl].
      destruct (getToken id (oauth cfg) s) as [s1 a]. cbn in *.
      exists f. rewrite Hl. split; [|auto]. apply lookup_app_l_Some. exact Hf.
    + exists f. auto.
  - unfold fetchToken_send in Hstep.
    destruct (fetches s !! q) as [fq|] eqn:Hq; [|discriminate]. cbn in Hstep.
    destruct (f_phase fq); try discriminate. injection Hstep as <-. cbn.
    destruct (decide (q = p)) as [->|Hne].
    + rewrite Hf in Hq. injection Hq as <-.
      eexists. split; [apply list_lookup_insert_eq; eapply lookup_lt_Some, Hf|].
      split; reflexivity.
    + exists f. rewrite list_lookup_insert_ne by exact Hne. auto.
  - unfold fetchToken_reply in Hstep.
    destruct (fetches s !! q) as [fq|] eqn:Hq; [|discriminate]. cbn in Hstep.
    destruct (f_phase fq); try discriminate. injection Hstep as <-. cbn.
    destruct (decide (q = p)) as [->|Hne].
    + rewrite Hf in Hq. injection Hq as <-.
      eexists. split; [apply list_lookup_insert_eq; eapply lookup_lt_Some, Hf|].
      split; reflexivity.
    + exists f. rewrite list_lookup_insert_ne by exact Hne. auto.
  - unfold getToken_resume in Hstep.
    destruct (fetches s !! q) as [fq|] eqn:Hq; [|discriminate]. cbn in Hstep.
    destruct (f_frame fq) as [fr|]; [|discriminate]. cbn in Hstep.
    destruct (f_phase fq); try discriminate. injection Hstep as <-. cbn.
    assert (q <> p) by congruence.
    exists f. rewrite list_lookup_insert_ne by assumption. auto.
  - unfold interceptor_resume in Hstep.
    destruct (calls s !! d) as [c|]; [|discriminate]. cbn -[acquired] in Hstep.
    destruct (c_pc c); try discriminate;
      destruct (acquired s a) as [[t|e]|]; try discriminate;
      cbn -[headers_set headers_of_init] in Hstep; case_headers Hstep;
      injection Hstep as <-; exists f; auto.
  - unfold interceptor_reply in Hstep.
    destruct (calls s !! d) as [c|]; [|discriminate]. cbn in Hstep.
    destruct (c_pc c); try discriminate.
    + destruct reply as [cause|res]; [injection Hstep as <-; exists f; auto|].
      destruct (status res =? 401); [|injection Hstep as <-; exists f; auto].
      rewrite getToken_after_delete in Hstep.
      injection Hstep as <-. cbn. exists f. split; [|auto].
      apply lookup_app_l_Some. exact Hf.
    + injection Hstep as <-. exists f. auto.
    + injection Hstep as <-. exists f. auto.
Qed.

Lemma run_keeps_frame evs : forall s s' p f,
  run providers s evs = Some s' ->
  ~ In (GetTokenResume p) evs ->
  fetches s !! p = Some f ->
  exists f', fetches s' !! p = Some f' /\
             f_frame f' = f_frame f /\ f_config f' = f_config f.
Proof.
  induction evs as [|ev evs IH]; intros s s' p f Hrun Hno Hf.
  - injection Hrun as <-. exists f. auto.
  - cbn in Hrun. destruct (step providers s ev) as [s1|] eqn:Hstep; [|discriminate].
    destruct (step_keeps_frame s ev s1 p f Hstep) as (f1 & Hf1 & Hfr & Hcf).
    { intros ->. apply Hno. left. reflexivity. }
    { exact Hf. }
    destruct (IH s1 s' p f1 Hrun) as (f' & Hf' & Hfr' & Hcf').
    { intros Hin. apply Hno. right. exact Hin. }
    { exact Hf1. }
    exists f'. split; [exact Hf'|]. split; congruence.
Qed.

(** C4: a fetch that [getToken] started is carried through any run of the
    event loop up to the point where that [getToken] call resumes. When the
    call resumes, the promise slot of the entry is emptied; if the fetch
    failed, the entry holds exactly the token that was cached when the fetch
    began (none, if none was cached), and the error reaches the caller that
    started the fetch and every caller that joined it; if the fetch
    succeeded, the entry holds the new token. The entries of other
    providers are not touched. *)
Theorem failed_fetch_keeps_prior_token (providerId : string)
    (config : OAuthConfig) (s0 s1 s2 : State) (p : nat) (evs : list Event)
    (f2 : Fetch) (r : Settled TokenData) :
  getToken providerId config s0 = (s1, Started p) ->
  run providers s1 evs = Some s2 ->
  ~ In (GetTokenResume p) evs ->
  fetches s2 !! p = Some f2 ->
  f_phase f2 = Done r ->
  let prior := tokenCache s0 !! providerId ≫= token in
  tokenCache s1 !! providerId = Some {| token := prior; promise := Some p |} /\
  acquired s2 (Joined p) = Some r /\
  exists s3,
    getToken_resume p s2 = Some s3 /\
    tokenCache s3 !! providerId
    = Some {| token := match r with
                       | Fulfilled t => Some t
                       | Rejected _ => prior
                       end;
              promise := None |} /\
    (forall other, other <> providerId ->
                   tokenCache s3 !! other = tokenCache s2 !! other) /\
    acquired s3 (Started p) = Some r /\
    acquired s3 (Joined p) = Some r.
Proof.
  intros Hget Hrun Hno Hf2 Hph prior.
  destruct (getToken_started _ _ _ _ _ Hget) as (Hp & _ & He & _ & Hf1).
  fold prior in He, Hf1.
  destruct (run_keeps_frame evs s1 s2 p _ Hrun Hno Hf1) as (f' & Hf' & Hfr & _).
  rewrite Hf2 in Hf'. injection Hf' as <-. cbn in Hfr.
  split; [exact He|].
  split.
  { cbn. rewrite Hf2. cbn. rewrite Hph. reflexivity. }
  eexists. split.
  { unfold getToken_resume. rewrite Hf2. cbn. rewrite Hfr. cbn. rewrite Hph.
    reflexivity. }
  assert (Hlt : (p < length (fetches s2))%nat) by (eapply lookup_lt_Some, Hf2).
  split.
  { cbn. rewrite lookup_insert_eq. destruct r; reflexivity. }
  split.
  { intros other Hne. cbn. apply lookup_insert_ne. congruence. }
  split; cbn; rewrite list_lookup_insert_eq by exact Hlt; reflexivity.
Qed.

(** *** One suspended [getToken] call per provider, while no 401 arrives *)

Lemma slot_owner_initial t0 : slot_owner (initial t0).
Proof. intros p f fr H. discriminate. Qed.

Lemma slot_owner_getToken providerId config s :
  slot_owner s -> slot_owner (getToken providerId config s).1.
Proof.
  intros Hinv.
  destruct (getToken_result providerId config s) as [[t E]|[[q E]|[Hnone E]]];
    rewrite E; cbn [fst]; try exact Hinv.
  intros p f fr Hf Hfr. cbn in Hf |- *.
  destruct (decide (p = length (fetches s))) as [->|Hne].
  - rewrite lookup_app_r in Hf by lia. rewrite Nat.sub_diag in Hf.
    injection Hf as <-. injection Hfr as <-. cbn.
    apply lookup_insert_eq.
  - assert (Hlt : (p < length (fetches s))%nat).
    { apply lookup_lt_Some in Hf. rewrite length_app in Hf. cbn in Hf. lia. }
    rewrite lookup_app_l in Hf by exact Hlt.
    pose proof (Hinv p f fr Hf Hfr) as Hslot.
    destruct (decide (fr_providerId fr = providerId)) as [Heq|Hneq].
    + rewrite Heq in Hslot. rewrite Hslot in Hnone. discriminate.
    + rewrite lookup_insert_ne by congruence. exact Hslot.
Qed.

Lemma slot_owner_step s ev s' :
  step providers s ev = Some s' -> not_401 ev -> slot_owner s -> slot_owner s'.
Proof.
  intros Hstep Hev Hinv.
  destruct ev as [dt|input init|q|q reply|q|d|d reply]; cbn in Hstep.
  - injection Hstep as <-. exact Hinv.
  - injection Hstep as <-. unfold interceptor.
    destruct (find_provider providers (url_of input)) as [[id cfg]|]; [|exact Hinv].
    pose proof (slot_owner_getToken id (oauth cfg) s Hinv) as H1.
    destruct (getToken id (oauth cfg) s) as [s1 a]. exact H1.
  - unfold fetchToken_send in Hstep.
    destruct (fetches s !! q) as [fq|] eqn:Hq; [|discriminate]. cbn in Hstep.
    destruct (f_phase fq); try discriminate. injection Hstep as <-.
    intros p f fr Hf Hfr. cbn in Hf |- *.
    destruct (decide (q = p)) as [->|Hne].
    + rewrite list_lookup_insert_eq in Hf by (eapply lookup_lt_Some, Hq).
      injection Hf as <-. cbn in Hfr. exact (Hinv p fq fr Hq Hfr).
    + rewrite list_lookup_insert_ne in Hf by exact Hne. exact (Hinv p f fr Hf Hfr).
  - unfold fetchToken_reply in Hstep.
    destruct (fetches s !! q) as [fq|] eqn:Hq; [|discriminate]. cbn in Hstep.
    destruct (f_phase fq); try discriminate. injection Hstep as <-.
    intros p f fr Hf Hfr. cbn in Hf |- *.
    destruct (decide (q = p)) as [->|Hne].
    + rewrite list_lookup_insert_eq in Hf by (eapply lookup_lt_Some, Hq).
      injection Hf as <-. cbn in Hfr. exact (Hinv p fq fr Hq Hfr).
    + rewrite list_lookup_insert_ne in Hf by exact Hne. exact (Hinv p f fr Hf Hfr).
  - unfold getToken_resume in Hstep.
    destruct (fetches s !! q) as [fq|] eqn:Hq; [|discriminate]. cbn in Hstep.
    destruct (f_frame fq) as [frq|] eqn:Hfrq; [|discriminate]. cbn in Hstep.
    destruct (f_phase fq) as [| |r]; try discriminate. injection Hstep as <-.
    intros p f fr Hf Hfr. cbn in Hf |- *.
    destruct (decide (q = p)) as [->|Hne].
    + rewrite list_lookup_insert_eq in Hf by (eapply lookup_lt_Some, Hq).
      injection Hf as <-. discriminate.
    + rewrite list_lookup_insert_ne in Hf by exact Hne.
      pose proof (Hinv p f fr Hf Hfr) as Hslot.
      pose proof (Hinv q fq frq Hq Hfrq) as Hslotq.
      destruct (decide (fr_providerId frq = fr_providerId fr)) as [Heq|Hneq].
      * rewrite Heq in Hslotq. rewrite Hslot in Hslotq. congruence.
      * rewrite lookup_insert_ne by exact Hneq. exact Hslot.
  - unfold interceptor_resume in Hstep.
    destruct (calls s !! d) as [c|]; [|discriminate]. cbn -[acquired] in Hstep.
    destruct (c_pc c); try discriminate;
      destruct (acquired s a) as [[t|e]|]; try discriminate;
      cbn -[headers_set headers_of_init] in Hstep; case_headers Hstep;
      injection Hstep as <-; exact Hinv.
  - unfold interceptor_reply in Hstep.
    destruct (calls s !! d) as [c|]; [|discriminate]. cbn in Hstep.
    destruct (c_pc c); try discriminate.
    + destruct reply as [cause|res]; [injection Hstep as <-; exact Hinv|].
      cbn in Hev. destruct (Z.eqb_spec (status res) 401); [contradiction|].
      injection Hstep as <-. exact Hinv.
    + injection Hstep as <-. exact Hinv.
    + injection Hstep as <-. exact Hinv.
Qed.

Lemma slot_owner_run evs s s' :
  run providers s evs = Some s' -> Forall not_401 evs ->
  slot_owner s -> slot_owner s'.
Proof. apply (run_invariant slot_owner not_401). apply slot_owner_step. Qed.

Lemma filter_at_most_one {A : Type} (P : A -> bool) (l : list A) :
  (forall i j x y, l !! i = Some x -> l !! j = Some y ->
                   P x = true -> P y = true -> i = j) ->
  (length (List.filter P l) <= 1)%nat.
Proof.
  induction l as [|a l IH]; intros Huniq; [cbn; lia|].
  cbn. destruct (P a) eqn:Ha.
  - assert (Hnil : List.filter P l = []).
    { destruct (List.filter P l) as [|y l'] eqn:E; [reflexivity|].
      assert (Hy : In y (List.filter P l)) by (rewrite E; left; reflexivity).
      apply filter_In in Hy as [Hin Hy].
      apply list_elem_of_In, list_elem_of_lookup in Hin as [j Hj].
      specialize (Huniq 0%nat (S j) a y eq_refl Hj Ha Hy). discriminate. }
    rewrite Hnil. cbn. lia.
  - apply IH. intros i j x y Hi Hj Hx Hy.
    specialize (Huniq (S i) (S j) x y Hi Hj Hx Hy). lia.
Qed.

Lemma slot_owner_suspended s providerId :
  slot_owner s -> (suspended providerId s <= 1)%nat.
Proof.
  intros Hinv. unfold suspended. apply filter_at_most_one.
  intros i j x y Hi Hj Hx Hy. unfold fetch_for in Hx, Hy.
  destruct (f_frame x) as [frx|] eqn:Hfx; [|discriminate].
  destruct (f_frame y) as [fry|] eqn:Hfy; [|discriminate].
  apply String.eqb_eq in Hx, Hy.
  pose proof (Hinv i x frx Hi Hfx) as H1.
  pose proof (Hinv j y fry Hj Hfy) as H2.
  rewrite Hx in H1. rewrite Hy in H2. rewrite H1 in H2. congruence.
Qed.

Lemma in_flight_le_suspended providerId s :
  (in_flight providerId s <= suspended providerId s)%nat.
Proof.
  unfold in_flight, suspended.
  induction (fetches s) as [|f l IH]; [cbn; lia|].
  cbn. destruct (fetch_for providerId f); cbn; [|exact IH].
  destruct (requested f); cbn; lia.
Qed.

(** *** A fetch that has lost its frame has settled *)

Lemma frames_ok_append s f :
  frames_ok s -> f_frame f <> None ->
  forall p f', (fetches s ++ [f]) !! p = Some f' -> f_frame f' = None ->
               exists r, f_phase f' = Done r.
Proof.
  intros Hok Hf p f' Hp Hnone.
  destruct (decide (p < length (fetches s))%nat) as [Hlt|Hge].
  - rewrite lookup_app_l in Hp by exact Hlt. exact (Hok p f' Hp Hnone).
  - rewrite lookup_app_r in Hp by lia.
    destruct (p - length (fetches s))%nat; cbn in Hp; [|discriminate].
    injection Hp as <-. contradiction.
Qed.

Lemma frames_ok_getToken providerId config s :
  frames_ok s -> frames_ok (getToken providerId config s).1.
Proof.
  intros Hok.
  destruct (getToken_result providerId config s) as [[t E]|[[q E]|[_ E]]];
    rewrite E; cbn [fst]; try exact Hok.
  intros p f'. cbn. apply frames_ok_append; [exact Hok|discriminate].
Qed.

Lemma frames_ok_step s ev s' :
  step providers s ev = Some s' -> frames_ok s -> frames_ok s'.
Proof.
  intros Hstep Hok.
  destruct ev as [dt|input init|q|q reply|q|d|d reply]; cbn in Hstep.
  - injection Hstep as <-. exact Hok.
  - injection Hstep as <-. unfold interceptor.
    destruct (find_provider providers (url_of input)) as [[id cfg]|]; [|exact Hok].
    pose proof (frames_ok_getToken id (oauth cfg) s Hok) as H1.
    destruct (getToken id (oauth cfg) s) as [s1 a]. exact H1.
  - unfold fetchToken_send in Hstep.
    destruct (fetches s !! q) as [fq|] eqn:Hq; [|discriminate]. cbn in Hstep.
    destruct (f_phase fq) eqn:Hph; try discriminate. injection Hstep as <-.
    intros p f Hf Hnone. cbn in Hf.
    destruct (decide (q = p)) as [->|Hne].
    + rewrite list_lookup_insert_eq in Hf by (eapply lookup_lt_Some, Hq).
      injection Hf as <-. cbn in Hnone.
      destruct (Hok p fq Hq Hnone) as [r Hr]. congruence.
    + rewrite list_lookup_insert_ne in Hf by exact Hne. exact (Hok p f Hf Hnone).
  - unfold fetchToken_reply in Hstep.
    destruct (fetches s !! q) as [fq|] eqn:Hq; [|discriminate]. cbn in Hstep.
    destruct (f_phase fq) eqn:Hph; try discriminate. injection Hstep as <-.
    intros p f Hf Hnone. cbn in Hf.
    destruct (decide (q = p)) as [->|Hne].
    + rewrite list_lookup_insert_eq in Hf by (eapply lookup_lt_Some, Hq).
      injection Hf as <-. cbn. eauto.
    + rewrite list_lookup_insert_ne in Hf by exact Hne. exact (Hok p f Hf Hnone).
  - unfold getToken_resume in Hstep.
    destruct (fetches s !! q) as [fq|] eqn:Hq; [|discriminate]. cbn in Hstep.
    destruct (f_frame fq) as [frq|] eqn:Hfrq; [|discriminate]. cbn in Hstep.
    destruct (f_phase fq) as [| |r] eqn:Hph; try discriminate. injection Hstep as <-.
    intros p f Hf Hnone. cbn in Hf.
    destruct (decide (q = p)) as [->|Hne].
    + rewrite list_lookup_insert_eq in Hf by (eapply lookup_lt_Some, Hq).
      injection Hf as <-. cbn. eauto.
    + rewrite list_lookup_insert_ne in Hf by exact Hne. exact (Hok p f Hf Hnone).
  - unfold interceptor_resume in Hstep.
    destruct (calls s !! d) as [c|]; [|discriminate]. cbn -[acquired] in Hstep.
    destruct (c_pc c); try discriminate;
      destruct (acquired s a) as [[t|e]|]; try discriminate;
      cbn -[headers_set headers_of_init] in Hstep; case_headers Hstep;
      injection Hstep as <-; exact Hok.
  - unfold interceptor_reply in Hstep.
    destruct (calls s !! d) as [c|]; [|discriminate]. cbn in Hstep.
    destruct (c_pc c); try discriminate.
    + destruct reply as [cause|res]; [injection Hstep as <-; exact Hok|].
      destruct (status res =? 401); [|injection Hstep as <-; exact Hok].
      pose proof (frames_ok_getToken providerId (oauth config)
                    (with_tokenCache (delete providerId) s) Hok) as H1.
      destruct (getToken providerId (oauth config)
                  (with_tokenCache (delete providerId) s)) as [s1 a].
      injection Hstep as <-. exact H1.
    + injection Hstep as <-. exact Hok.
    + injection Hstep as <-. exact Hok.
Qed.

Lemma frames_ok_run evs s s' :
  run providers s evs = Some s' -> frames_ok s -> frames_ok s'.
Proof.
  intros Hrun. apply (run_invariant frames_ok (fun _ => True)) with (evs := evs).
  - intros s1 ev s2 Hstep _. eapply frames_ok_step, Hstep.
  - exact Hrun.
  - apply Forall_always. auto.
Qed.

(** X1: in every state that a run without a 401 answer reaches, each
    provider has at most one suspended [getToken] call, hence at most one token
    request in flight; and in every reachable state a token request that is
    in flight still has its [getToken] call suspended. *)
Theorem single_flight_without_401 (t0 : Z) (evs : list Event) (s : State)
    (providerId : string) :
  run providers (initial t0) evs = Some s ->
  Forall not_401 evs ->
  (suspended providerId s <= 1)%nat /\ (in_flight providerId s <= 1)%nat /\
  forall p f, fetches s !! p = Some f -> f_phase f = Requested ->
              exists fr, f_frame f = Some fr.
Proof.
  intros Hrun Hall.
  assert (Hinv : slot_owner s).
  { eapply slot_owner_run; [exact Hrun|exact Hall|apply slot_owner_initial]. }
  assert (Hfr : frames_ok s).
  { eapply frames_ok_run; [exact Hrun|]. intros p f H. discriminate. }
  pose proof (slot_owner_suspended s providerId Hinv).
  pose proof (in_flight_le_suspended providerId s).
  split; [lia|]. split; [lia|].
  intros p f Hf Hph. destruct (f_frame f) as [fr|] eqn:E; [eauto|].
  destruct (Hfr p f Hf E) as [r Hr]. congruence.
Qed.

(** *** Callers that arrive while a fetch is pending *)

Lemma joining_step providerId config p s1 s ev s' ex :
  tokenCache s1 !! providerId = Some {| token := ex; promise := Some p |} ->
  (forall t, ex = Some t -> expiresAt t <= now s1 + 60000) ->
  arrival providers providerId p ev ->
  joining providerId config p s1 s ->
  step providers s ev = Some s' ->
  joining providerId config p s1 s'.
Proof.
  intros He Hex Hev (Hnow & Hcache & Hlen & (f & Hf & Hcf & Hph) & l & Hcalls & Hl)
    Hstep.
  destruct ev as [dt|input init|q|q reply|q|d|d reply]; cbn in Hev, Hstep;
    try contradiction.
  - injection Hstep as <-. unfold joining. cbn.
    split; [lia|]. split; [exact Hcache|]. split; [exact Hlen|].
    split; [exists f; auto|]. exists l. auto.
  - injection Hstep as <-. destruct Hev as [cfg Hfind].
    unfold interceptor. rewrite Hfind.
    rewrite (getToken_joins providerId (oauth cfg) s ex p).
    + unfold joining. cbn.
      split; [exact Hnow|]. split; [exact Hcache|]. split; [exact Hlen|].
      split; [exists f; auto|].
      exists (l ++ [{| c_input := input; c_init := init;
                       c_pc := AwaitToken providerId cfg (Joined p) |}]).
      split; [rewrite Hcalls, app_assoc; reflexivity|].
      apply Forall_app. split; [exact Hl|].
      constructor; [|constructor]. exists cfg. reflexivity.
    + rewrite Hcache. exact He.
    + intros t Ht. specialize (Hex t Ht). lia.
  - subst q. unfold fetchToken_send in Hstep. rewrite Hf in Hstep. cbn in Hstep.
    destruct Hph as [[Hlog Hiss]|[Hreq _]].
    + rewrite Hlog in Hstep. injection Hstep as <-. unfold joining. cbn.
      split; [exact Hnow|]. split; [exact Hcache|].
      split; [rewrite length_insert; exact Hlen|].
      split; [|exists l; auto].
      eexists. split.
      { apply list_lookup_insert_eq. eapply lookup_lt_Some, Hf. }
      cbn. split; [exact Hcf|]. right. split; [reflexivity|].
      rewrite Hiss, Hcf. reflexivity.
    + rewrite Hreq in Hstep. discriminate.
Qed.

(** X2: while a fetch that [getToken] started for a provider is pending, any
    number of further requests for that provider, arriving at any later
    times, start no fetch: the store of fetches and the cache stay as they
    are, at most the one token request of the pending fetch goes out, each
    of the new calls awaits the promise of that fetch, and every caller of
    that promise gets what the caller that started the fetch gets. *)
Theorem concurrent_requests_share_one_fetch (providerId : string)
    (config : OAuthConfig) (s0 s1 s2 : State) (p : nat) (evs : list Event) :
  getToken providerId config s0 = (s1, Started p) ->
  Forall (arrival providers providerId p) evs ->
  run providers s1 evs = Some s2 ->
  length (fetches s2) = length (fetches s1) /\
  tokenCache s2 = tokenCache s1 /\
  (issued s2 = issued s1 \/ issued s2 = issued s1 ++ [fetchToken_request config]) /\
  (forall d c, (length (calls s1) <= d)%nat -> calls s2 !! d = Some c ->
               exists cfg, c_pc c = AwaitToken providerId cfg (Joined p)) /\
  forall s3 r, acquired s3 (Started p) = Some r -> acquired s3 (Joined p) = Some r.
Proof.
  intros Hget Hall Hrun.
  destruct (getToken_started _ _ _ _ _ Hget) as (_ & Hnow & He & Hex & Hf).
  rewrite <- Hnow in Hex.
  assert (Hj : joining providerId config p s1 s1).
  { split; [lia|]. split; [reflexivity|]. split; [reflexivity|].
    split; [eexists; split; [exact Hf|split; [reflexivity|left; auto]]|].
    exists []. split; [rewrite app_nil_r; reflexivity|constructor]. }
  assert (Hj2 : joining providerId config p s1 s2).
  { revert Hrun Hall Hj.
    apply (run_invariant (joining providerId config p s1)
             (arrival providers providerId p)).
    intros s ev s' Hstep Hev Hjs. eapply joining_step; eassumption. }
  destruct Hj2 as (_ & Hcache & Hlen & (f & _ & _ & Hph) & l & Hcalls & Hl).
  split; [exact Hlen|]. split; [exact Hcache|].
  split; [destruct Hph as [[_ H]|[_ H]]; auto|].
  split.
  - intros d c Hd Hc. rewrite Hcalls in Hc.
    rewrite lookup_app_r in Hc by exact Hd.
    rewrite Forall_forall in Hl. apply Hl.
    eapply list_elem_of_lookup_2, Hc.
  - intros s3 r. cbn. destruct (fetches s3 !! p) as [f3|]; [|discriminate].
    cbn. destruct (f_phase f3); try discriminate.
    destruct (f_frame f3); [discriminate|auto].
Qed.

(** *** The requests of one call of the interceptor *)

Lemma sends_ok_set_pc d pc s c :
  calls s !! d = Some c ->
  sends_ok s ->
  sends_at pc (sent_count d s) ->
  sends_ok (set_pc d pc s).
Proof.
  intros Hc Hok Hpc d'. destruct (decide (d = d')) as [<-|Hne].
  - rewrite (set_pc_lookup d pc s c Hc). exact Hpc.
  - rewrite (set_pc_lookup_ne d d' pc s Hne). exact (Hok d').
Qed.

Lemma sends_ok_set_pc_send d pc s c input init :
  calls s !! d = Some c ->
  sends_ok s ->
  sends_at pc (S (sent_count d s)) ->
  sends_ok (send d input init (set_pc d pc s)).
Proof.
  intros Hc Hok Hpc d'.
  change (calls (send d input init (set_pc d pc s))) with (calls (set_pc d pc s)).
  rewrite sent_count_send.
  change (sent_count d' (set_pc d pc s)) with (sent_count d' s).
  destruct (decide (d = d')) as [<-|Hne].
  - rewrite (set_pc_lookup d pc s c Hc). rewrite Nat.eqb_refl. cbn.
    replace (sent_count d s + 1)%nat with (S (sent_count d s)) by lia. exact Hpc.
  - rewrite (set_pc_lookup_ne d d' pc s Hne).
    destruct (Nat.eqb_spec d d'); [contradiction|].
    rewrite Nat.add_0_r. exact (Hok d').
Qed.

Lemma sends_ok_same s s' :
  calls s' = calls s -> sent s' = sent s -> sends_ok s -> sends_ok s'.
Proof.
  intros Hc Hs Hok d. unfold sent_count. rewrite Hc, Hs. exact (Hok d).
Qed.

Lemma sends_ok_step s ev s' :
  step providers s ev = Some s' -> sends_ok s -> sends_ok s'.
Proof.
  intros Hstep Hok.
  destruct ev as [dt|input init|q|q reply|q|d|d reply]; cbn in Hstep.
  - injection Hstep as <-. exact Hok.
  - injection Hstep as <-. unfold interceptor.
    assert (Hnew : sent_count (length (calls s)) s = 0%nat).
    { specialize (Hok (length (calls s))).
      rewrite lookup_ge_None_2 in Hok by lia. exact Hok. }
    destruct (find_provider providers (url_of input)) as [[id cfg]|].
    + destruct (getToken_calls_sent id (oauth cfg) s) as [Hc Hs].
      destruct (getToken id (oauth cfg) s) as [s1 a]. cbn in Hc, Hs.
      intros d'. unfold sent_count. cbn. rewrite Hc, Hs.
      specialize (Hok d'). unfold sent_count in Hok, Hnew.
      destruct (decide (d' < length (calls s))%nat) as [Hlt|Hge].
      * rewrite lookup_app_l by exact Hlt. exact Hok.
      * destruct (decide (d' = length (calls s))) as [->|Hne].
        { rewrite lookup_app_r by lia. rewrite Nat.sub_diag. cbn. exact Hnew. }
        { rewrite lookup_ge_None_2 by (rewrite length_app; cbn; lia).
          rewrite lookup_ge_None_2 in Hok by lia. exact Hok. }
    + intros d'. rewrite sent_count_send.
      change (sent_count d' (push_call _ s)) with (sent_count d' s).
      cbn [send with_sent calls push_call with_calls].
      specialize (Hok d').
      destruct (decide (d' < length (calls s))%nat) as [Hlt|Hge].
      * rewrite lookup_app_l by exact Hlt.
        destruct (Nat.eqb_spec (length (calls s)) d'); [lia|].
        rewrite Nat.add_0_r. exact Hok.
      * destruct (decide (d' = length (calls s))) as [->|Hne].
        { rewrite lookup_app_r by lia. rewrite Nat.sub_diag. cbn.
          rewrite Nat.eqb_refl, Hnew. reflexivity. }
        { rewrite lookup_ge_None_2 by (rewrite length_app; cbn; lia).
          rewrite lookup_ge_None_2 in Hok by lia.
          destruct (Nat.eqb_spec (length (calls s)) d'); [lia|]. lia. }
  - unfold fetchToken_send in Hstep.
    destruct (fetches s !! q) as [fq|]; [|discriminate]. cbn in Hstep.
    destruct (f_phase fq); try discriminate. injection Hstep as <-. exact Hok.
  - unfold fetchToken_reply in Hstep.
    destruct (fetches s !! q) as [fq|]; [|discriminate]. cbn in Hstep.
    destruct (f_phase fq); try discriminate. injection Hstep as <-. exact Hok.
  - unfold getToken_resume in Hstep.
    destruct (fetches s !! q) as [fq|]; [|discriminate]. cbn in Hstep.
    destruct (f_frame fq) as [frq|]; [|discriminate]. cbn in Hstep.
    destruct (f_phase fq); try discriminate. injection Hstep as <-. exact Hok.
  - unfold interceptor_resume in Hstep.
    destruct (calls s !! d) as [c|] eqn:Hc; [|discriminate].
    cbn -[acquired] in Hstep.
    pose proof (Hok d) as Hd. rewrite Hc in Hd.
    destruct (c_pc c); try discriminate; cbn in Hd.
    + destruct (acquired s a) as [[t|e]|]; try discriminate;
        cbn -[headers_set headers_of_init] in Hstep; case_headers Hstep;
        injection Hstep as <-;
        try (eapply sends_ok_set_pc; [exact Hc|exact Hok|]; cbn; lia).
      eapply sends_ok_set_pc_send; [exact Hc|exact Hok|]. cbn. lia.
    + destruct (acquired s a) as [[t|e]|]; try discriminate;
        cbn -[headers_set headers_of_init] in Hstep; case_headers Hstep;
        injection Hstep as <-;
        try (eapply sends_ok_set_pc; [exact Hc|exact Hok|]; cbn; lia).
      eapply sends_ok_set_pc_send; [exact Hc|exact Hok|]. cbn. lia.
  - unfold interceptor_reply in Hstep.
    destruct (calls s !! d) as [c|] eqn:Hc; [|discriminate]. cbn in Hstep.
    pose proof (Hok d) as Hd. rewrite Hc in Hd.
    destruct (c_pc c); try discriminate; cbn in Hd.
    + destruct reply as [cause|res].
      { injection Hstep as <-. eapply sends_ok_set_pc; [exact Hc|exact Hok|]. cbn. lia. }
      destruct (status res =? 401).
      * destruct (getToken_calls_sent providerId (oauth config)
                    (with_tokenCache (delete providerId) s)) as [Hcs Hss].
        destruct (getToken providerId (oauth config)
                    (with_tokenCache (delete providerId) s)) as [s1 a].
        cbn in Hcs, Hss. injection Hstep as <-.
        assert (Hok1 : sends_ok s1) by (eapply sends_ok_same; eassumption).
        eapply sends_ok_set_pc; [rewrite Hcs; exact Hc|exact Hok1|].
        unfold sent_count. rewrite Hss. cbn. exact Hd.
      * injection Hstep as <-. eapply sends_ok_set_pc; [exact Hc|exact Hok|]. cbn. lia.
    + injection Hstep as <-. eapply sends_ok_set_pc; [exact Hc|exact Hok|]. cbn. lia.
    + injection Hstep as <-. eapply sends_ok_set_pc; [exact Hc|exact Hok|]. cbn. lia.
Qed.

Lemma sends_ok_run evs s s' :
  run providers s evs = Some s' -> sends_ok s -> sends_ok s'.
Proof.
  intros Hrun. apply (run_invariant sends_ok (fun _ => True)) with (evs := evs).
  - intros s1 ev s2 Hstep _. eapply sends_ok_step, Hstep.
  - exact Hrun.
  - apply Forall_always. auto.
Qed.

(** X3: in every state that a run reaches, no call of the interceptor has sent
    more than two requests, and a call that has returned takes no further
    step. *)
Theorem at_most_two_sends (t0 : Z) (evs : list Event) (s : State) (d : nat) :
  run providers (initial t0) evs = Some s ->
  (sent_count d s <= 2)%nat /\
  (forall r, pc_of d s = Some (Returned r) ->
             forall ev, (exists reply, ev = ApiReply d reply) \/ ev = Resume d ->
                        step providers s ev = None).
Proof.
  intros Hrun.
  assert (Hok : sends_ok s).
  { eapply sends_ok_run; [exact Hrun|]. intros d'. reflexivity. }
  split.
  - specialize (Hok d). destruct (calls s !! d) as [c|]; [|lia].
    destruct (c_pc c); cbn in Hok; lia.
  - intros r Hr ev Hev.
    destruct (returned_is_final d s r Hr) as [H1 H2].
    destruct Hev as [[reply ->]| ->]; cbn; auto.
Qed.

End Runs.

Lemma failed_fetch_keeps_prior_token_witness :
  tokenCache
    (default (initial 0)
       (getToken_resume 1
          (default (initial 0)
             (run registry
                (getToken "gateway" gateway_oauth (state_after near_expiry)).1
                refresh_fails))))
  !! "gateway"
  = Some {| token := Some tok1; promise := None |}.
Proof.
  destruct (failed_fetch_keeps_prior_token registry "gateway" gateway_oauth
              (state_after near_expiry)
              (getToken "gateway" gateway_oauth (state_after near_expiry)).1
              (default (initial 0)
                 (run registry
                    (getToken "gateway" gateway_oauth (state_after near_expiry)).1
                    refresh_fails))
              1 refresh_fails
              {| f_config := gateway_oauth;
                 f_phase := Done (Rejected (NewError "OAuth token failed (503): down"));
                 f_frame := Some {| fr_providerId := "gateway";
                                    fr_existingToken := Some tok1 |} |}
              (Rejected (NewError "OAuth token failed (503): down")))
    as (_ & _ & s3 & Hs3 & Hc & _).
  - vm_compute. reflexivity.
  - vm_compute. reflexivity.
  - intros [H|[H|[]]]; discriminate.
  - vm_compute. reflexivity.
  - reflexivity.
  - rewrite Hs3. etransitivity; [exact Hc|]. vm_compute. reflexivity.
Defined.

Lemma single_flight_without_401_witness :
  (in_flight "gateway" (state_after refreshing) <= 1)%nat.
Proof.
  refine (proj1 (proj2 (single_flight_without_401 registry 0 refreshing
                          (state_after refreshing) "gateway" _ _))).
  - vm_compute. reflexivity.
  - repeat constructor.
Defined.

Lemma concurrent_requests_share_one_fetch_witness :
  length (fetches (default (initial 0)
                     (run registry (getToken "gateway" gateway_oauth (initial 0)).1
                        [Request models None; Tick 5; TokenSend 0;
                         Request models None])))
  = 1%nat.
Proof.
  refine (proj1 (concurrent_requests_share_one_fetch registry "gateway"
                   gateway_oauth (initial 0)
                   (getToken "gateway" gateway_oauth (initial 0)).1
                   _ 0 [Request models None; Tick 5; TokenSend 0;
                        Request models None] _ _ _)).
  - reflexivity.
  - repeat constructor; try (exists gateway; vm_compute; reflexivity).
    cbn. lia.
  - vm_compute. reflexivity.
Defined.

Lemma at_most_two_sends_witness :
  (sent_count 0 (state_after both_rejected) <= 2)%nat.
Proof.
  refine (proj1 (at_most_two_sends registry 0 both_rejected
                   (state_after both_rejected) 0 _)).
  vm_compute. reflexivity.
Defined.

(** ** The 401 path against the single flight *)

(** C1: the code breaks the invariant. Two requests for one provider are
    sent with the cached token and both are answered 401. Each answer
    deletes the cache entry and calls [getToken], which then finds no entry
    and starts a fetch: at the end of the run two token requests of that
    provider are in flight at once, the second started while the first was
    pending, and three token requests have been sent in all. *)
Theorem two_fetches_in_flight :
  exists s,
    run registry (initial 0) both_rejected = Some s /\
    in_flight "gateway" s = 2%nat /\
    f_phase <$> fetches s !! 1%nat = Some Requested /\
    f_phase <$> fetches s !! 2%nat = Some Requested /\
    (fr_providerId <$> (fetches s !! 1%nat ≫= f_frame)) = Some "gateway" /\
    (fr_providerId <$> (fetches s !! 2%nat ≫= f_frame)) = Some "gateway" /\
    length (issued s) = 3%nat.
Proof. exists (state_after both_rejected). by_running. Qed.

(** C5: the code breaks the claim. In the state where the refresh of the
    first rejected request is in flight, the cache entry holds its promise
    and a caller would join it. Line 297 deletes the whole entry, the
    promise with it; the [getToken] call of line 298, the first caller
    after the invalidation, finds nothing to join and starts a second
    fetch. *)
Theorem invalidate_discards_pending_fetch :
  exists s s',
    run registry (initial 0) first_rejected = Some s /\
    tokenCache s !! "gateway" = Some {| token := None; promise := Some 1%nat |} /\
    f_phase <$> fetches s !! 1%nat = Some Requested /\
    getToken "gateway" gateway_oauth s = (s, Joined 1) /\
    tokenCache (with_tokenCache (delete "gateway") s) !! "gateway" = None /\
    getToken "gateway" gateway_oauth (with_tokenCache (delete "gateway") s)
    = (s', Started 2) /\
    length (fetches s') = S (length (fetches s)) /\
    interceptor_reply 1 unauthorized s
    = Some (set_pc 1 (AwaitNewToken "gateway" gateway
                        [("Authorization", "Bearer tok1")] (Started 2)) s').
Proof.
  exists (state_after first_rejected),
    (getToken "gateway" gateway_oauth
       (with_tokenCache (delete "gateway") (state_after first_rejected))).1.
  by_running.
Qed.

(** ** The interceptor *)

(** C6: a request whose URL starts with the [baseURL] of no registered
    provider is handed to the original transport with the caller's two
    arguments as they are; the call touches neither the cache nor the
    fetches nor the token requests, takes no part in token logic, and
    returns what the transport answers: the response itself when the
    transport responds, the transport's rejection when it rejects. *)
Theorem pass_through (providers : list (string * ProviderEntry))
    (input : RequestInput) (init : option RequestInit) (s : State) :
  (forall id cfg, In (id, cfg) providers ->
                  String.prefix (baseURL cfg) (url_of input) = false) ->
  let d := length (calls s) in
  let s1 := interceptor providers input init s in
  sent s1 = sent s ++ [{| sent_by := d; sent_input := input; sent_init := init |}] /\
  calls s1 = calls s ++ [{| c_input := input; c_init := init; c_pc := AwaitPass |}] /\
  tokenCache s1 = tokenCache s /\ fetches s1 = fetches s /\
  issued s1 = issued s /\ now s1 = now s /\
  interceptor_resume d s1 = None /\
  forall s2 : State,
    pc_of d s2 = Some AwaitPass ->
    (forall res : ApiResponse,
        exists s3,
          interceptor_reply d (Responds res) s2 = Some s3 /\
          pc_of d s3 = Some (Returned (Fulfilled res)) /\
          sent s3 = sent s2 /\ tokenCache s3 = tokenCache s2 /\
          fetches s3 = fetches s2 /\ issued s3 = issued s2) /\
    (forall cause : string,
        exists s3,
          interceptor_reply d (Rejects cause) s2 = Some s3 /\
          pc_of d s3 = Some (Returned (Rejected (TransportRejection cause))) /\
          sent s3 = sent s2 /\ tokenCache s3 = tokenCache s2 /\
          fetches s3 = fetches s2 /\ issued s3 = issued s2).
Proof.
  intros Hno d s1. subst s1. unfold interceptor.
  rewrite (find_provider_none _ _ Hno). fold d. cbn.
  repeat (split; [reflexivity|]).
  split.
  { unfold interceptor_resume. cbn. subst d.
    rewrite lookup_app_r by lia. rewrite Nat.sub_diag. reflexivity. }
  intros s2 Hpc. unfold pc_of in Hpc.
  destruct (calls s2 !! d) as [c|] eqn:Hc; [|discriminate].
  cbn in Hpc. injection Hpc as Hpc.
  split.
  - intros res. exists (set_pc d (Returned (Fulfilled res)) s2).
    split.
    { unfold interceptor_reply. rewrite Hc. cbn. rewrite Hpc. reflexivity. }
    split; [eapply pc_of_set_pc, Hc|].
    repeat split; reflexivity.
  - intros cause.
    exists (set_pc d (Returned (Rejected (TransportRejection cause))) s2).
    split.
    { unfold interceptor_reply. rewrite Hc. cbn. rewrite Hpc. reflexivity. }
    split; [eapply pc_of_set_pc, Hc|].
    repeat split; reflexivity.
Qed.

Lemma pass_through_witness :
  sent (interceptor registry elsewhere None (initial 0))
  = [{| sent_by := 0; sent_input := elsewhere; sent_init := None |}].
Proof.
  refine (proj1 (pass_through registry elsewhere None (initial 0) _)).
  intros id cfg [H|[]]. injection H as <- <-. vm_compute. reflexivity.
Defined.

(** What the call returns when the transport answers a request whose
    promise the call has returned: the response itself, or the transport's
    rejection; and the call takes no further step. *)
Lemma answer_is_returned (d : nat) (s : State) (pc : Pc) :
  pc = AwaitSecond \/ pc = AwaitPass ->
  pc_of d s = Some pc ->
  (forall res : ApiResponse,
      exists s',
        interceptor_reply d (Responds res) s = Some s' /\
        pc_of d s' = Some (Returned (Fulfilled res)) /\
        sent s' = sent s /\ tokenCache s' = tokenCache s /\
        fetches s' = fetches s) /\
  (forall cause : string,
      exists s',
        interceptor_reply d (Rejects cause) s = Some s' /\
        pc_of d s' = Some (Returned (Rejected (TransportRejection cause))) /\
        sent s' = sent s /\ tokenCache s' = tokenCache s /\
        fetches s' = fetches s).
Proof.
  intros Hpc0 Hpc. unfold pc_of in Hpc.
  destruct (calls s !! d) as [c|] eqn:Hc; [|discriminate].
  cbn in Hpc. injection Hpc as Hpc.
  split.
  - intros res. exists (set_pc d (Returned (Fulfilled res)) s).
    split.
    { unfold interceptor_reply. rewrite Hc. cbn. rewrite Hpc.
      destruct Hpc0 as [-> | ->]; reflexivity. }
    split; [eapply pc_of_set_pc, Hc|]. repeat split; reflexivity.
  - intros cause.
    exists (set_pc d (Returned (Rejected (TransportRejection cause))) s).
    split.
    { unfold interceptor_reply. rewrite Hc. cbn. rewrite Hpc.
      destruct Hpc0 as [-> | ->]; reflexivity. }
    split; [eapply pc_of_set_pc, Hc|]. repeat split; reflexivity.
Qed.

(** C3, as stated, fails: the first request is answered 401 and the issuer
    denies the refresh. The call then rejects with the error of the token
    fetch; it has sent one request and sends no second one. *)
Lemma retry_without_token_counterexample :
  exists s,
    run registry (initial 0) refresh_denied = Some s /\
    pc_of 0 s
    = Some (Returned (Rejected (NewError "OAuth token failed (401): denied"))) /\
    sent_count 0 s = 1%nat /\
    interceptor_resume 0 s = None /\
    forall reply, interceptor_reply 0 reply s = None.
Proof.
  exists (state_after refresh_denied).
  split; [vm_compute; reflexivity|].
  assert (Hpc : pc_of 0 (state_after refresh_denied)
                = Some (Returned (Rejected
                          (NewError "OAuth token failed (401): denied"))))
    by (vm_compute; reflexivity).
  split; [exact Hpc|]. split; [vm_compute; reflexivity|].
  eapply returned_is_final, Hpc.
Qed.

(** C3: a call of the interceptor that awaits the first response of the
    protected endpoint returns a response whose status is not 401 as it
    is, touching nothing. On a 401 it deletes the cache entry of the
    provider and calls [getToken], which always starts a fresh fetch;
    nothing is sent meanwhile, and the call waits while that fetch is
    pending. When the fetch fails, the call rejects with that error and
    sends nothing. When it yields a token whose header value, trimmed,
    holds a NUL, a line feed or a carriage return, [headers.set] throws:
    the call rejects and sends nothing. Otherwise the call sends the
    request once more through the original transport, to the same input,
    with the caller's method and body, with exactly one [Authorization]
    header, holding the trimmed value of the new token, and with the other
    headers of the first request. What the transport answers to the second
    request is what the call returns, the response itself whatever its
    status, a 401 included, or the transport's rejection; and a call that
    has returned takes no further step. *)
Theorem retry_once_on_401 (s : State) (d : nat) (c : Call) (providerId : string)
    (config : ProviderEntry) (headers : Headers) (res : ApiResponse) :
  calls s !! d = Some c ->
  c_pc c = AwaitFirst providerId config headers ->
  (status res <> 401 ->
   exists s1,
     interceptor_reply d (Responds res) s = Some s1 /\
     pc_of d s1 = Some (Returned (Fulfilled res)) /\
     sent s1 = sent s /\ tokenCache s1 = tokenCache s /\ fetches s1 = fetches s) /\
  (status res = 401 ->
   let p := length (fetches s) in
   let waiting :=
     {| c_input := c_input c; c_init := c_init c;
        c_pc := AwaitNewToken providerId config headers (Started p) |} in
   exists s1,
     interceptor_reply d (Responds res) s = Some s1 /\
     tokenCache s1 = <[providerId := {| token := None; promise := Some p |}]>
                       (delete providerId (tokenCache s)) /\
     fetches s1 =
       fetches s ++
         [{| f_config := oauth config; f_phase := Logging;
             f_frame := Some {| fr_providerId := providerId;
                                fr_existingToken := None |} |}] /\
     sent s1 = sent s /\
     calls s1 !! d = Some waiting /\
     (forall s2 : State,
        calls s2 !! d = Some waiting ->
        acquired s2 (Started p) = None ->
        interceptor_resume d s2 = None) /\
     (forall (s2 : State) (e : Thrown),
        calls s2 !! d = Some waiting ->
        acquired s2 (Started p) = Some (Rejected e) ->
        exists s3,
          interceptor_resume d s2 = Some s3 /\
          pc_of d s3 = Some (Returned (Rejected e)) /\ sent s3 = sent s2) /\
     forall (s2 : State) (newToken : TokenData) (value : string),
       calls s2 !! d = Some waiting ->
       acquired s2 (Started p) = Some (Fulfilled newToken) ->
       trimmed (authorization_value newToken) value ->
       (forbidden value = true ->
        exists s3,
          interceptor_resume d s2 = Some s3 /\
          pc_of d s3 = Some (Returned (Rejected HeaderTypeError)) /\
          sent s3 = sent s2) /\
       (forbidden value = false ->
        exists s3 init2,
          interceptor_resume d s2 = Some s3 /\
          sent s3 =
            sent s2 ++
              [{| sent_by := d; sent_input := c_input c;
                  sent_init := Some init2 |}] /\
          ri_method init2 = c_init c ≫= ri_method /\
          ri_body init2 = c_init c ≫= ri_body /\
          headers_get "Authorization" (ri_headers init2) = Some value /\
          length (List.filter (same_header "Authorization") (ri_headers init2))
          = 1%nat /\
          List.filter (fun h => negb (same_header "Authorization" h))
            (ri_headers init2)
          = List.filter (fun h => negb (same_header "Authorization" h)) headers /\
          pc_of d s3 = Some AwaitSecond /\
          forall s4 : State,
            pc_of d s4 = Some AwaitSecond ->
            (forall res2 : ApiResponse,
                exists s5,
                  interceptor_reply d (Responds res2) s4 = Some s5 /\
                  pc_of d s5 = Some (Returned (Fulfilled res2)) /\
                  sent s5 = sent s4 /\ tokenCache s5 = tokenCache s4 /\
                  fetches s5 = fetches s4 /\
                  forall s6, pc_of d s6 = pc_of d s5 ->
                             interceptor_resume d s6 = None /\
                             forall reply', interceptor_reply d reply' s6 = None) /\
            (forall cause : string,
                exists s5,
                  interceptor_reply d (Rejects cause) s4 = Some s5 /\
                  pc_of d s5
                  = Some (Returned (Rejected (TransportRejection cause))) /\
                  sent s5 = sent s4 /\ tokenCache s5 = tokenCache s4 /\
                  fetches s5 = fetches s4 /\
                  forall s6, pc_of d s6 = pc_of d s5 ->
                             interceptor_resume d s6 = None /\
                             forall reply', interceptor_reply d reply' s6 = None))).
Proof.
  intros Hc Hpc. split.
  - intros Hne. exists (set_pc d (Returned (Fulfilled res)) s).
    split.
    { unfold interceptor_reply. rewrite Hc. cbn. rewrite Hpc.
      destruct (Z.eqb_spec (status res) 401); [contradiction|reflexivity]. }
    split; [eapply pc_of_set_pc, Hc|]. repeat split; reflexivity.
  - intros H401 p waiting.
    eexists. split.
    { unfold interceptor_reply. rewrite Hc. cbn. rewrite Hpc, H401. cbn.
      rewrite getToken_after_delete. cbn. reflexivity. }
    split; [reflexivity|]. split; [reflexivity|]. split; [reflexivity|].
    split; [apply set_pc_lookup; exact Hc|].
    split.
    { intros s2 Hc2 Hacq. unfold interceptor_resume. rewrite Hc2.
      cbn -[acquired headers_set]. rewrite Hacq. reflexivity. }
    split.
    { intros s2 e Hc2 Hacq. eexists. split.
      { unfold interceptor_resume. rewrite Hc2. cbn -[acquired headers_set].
        rewrite Hacq. cbn. reflexivity. }
      split; [eapply pc_of_set_pc, Hc2|reflexivity]. }
    intros s2 newToken value Hc2 Hacq Htrim.
    destruct (headers_set_authorization _ value headers Htrim) as [Hbad Hgood].
    split.
    { intros Hf. eexists. split.
      { unfold interceptor_resume. rewrite Hc2. cbn -[acquired headers_set].
        rewrite Hacq. cbn -[headers_set]. rewrite (Hbad Hf). reflexivity. }
      split; [eapply pc_of_set_pc, Hc2|reflexivity]. }
    intros Hf. destruct (Hgood Hf) as (hs' & Hset & Hget & Hone & Hothers).
    exists (send d (c_input c) (Some (init_with_headers (c_init c) hs'))
              (set_pc d AwaitSecond s2)),
           (init_with_headers (c_init c) hs').
    split.
    { unfold interceptor_resume. rewrite Hc2. cbn -[acquired headers_set].
      rewrite Hacq. cbn -[headers_set]. rewrite Hset. reflexivity. }
    split; [reflexivity|].
    split; [destruct (c_init c); reflexivity|].
    split; [destruct (c_init c); reflexivity|].
    rewrite ri_headers_with.
    split; [exact Hget|]. split; [exact Hone|]. split; [exact Hothers|].
    split.
    { unfold send. cbn. eapply pc_of_set_pc, Hc2. }
    intros s4 Hpc4.
    destruct (answer_is_returned d s4 AwaitSecond (or_introl eq_refl) Hpc4)
      as [Hres Hrej].
    split.
    + intros res2. destruct (Hres res2) as (s5 & H1 & H2 & H3 & H4 & H5).
      exists s5. repeat (split; [assumption|]).
      intros s6 H6. rewrite H2 in H6. eapply returned_is_final, H6.
    + intros cause. destruct (Hrej cause) as (s5 & H1 & H2 & H3 & H4 & H5).
      exists s5. repeat (split; [assumption|]).
      intros s6 H6. rewrite H2 in H6. eapply returned_is_final, H6.
Qed.

Lemma retry_once_on_401_witness :
  pc_of 0 (default (initial 0)
             (interceptor_reply 0 unauthorized (state_after warm_up)))
  = Some (AwaitNewToken "gateway" gateway [("Authorization", "Bearer tok1")]
            (Started 1)).
Proof.
  destruct (retry_once_on_401 (state_after warm_up) 0
              {| c_input := models; c_init := None;
                 c_pc := AwaitFirst "gateway" gateway
                           [("Authorization", "Bearer tok1")] |}
              "gateway" gateway [("Authorization", "Bearer tok1")]
              {| status := 401; body := "expired" |}
              ltac:(vm_compute; reflexivity) eq_refl)
    as [_ H].
  destruct (H eq_refl) as (s1 & Hs1 & _ & _ & _ & Hd & _).
  unfold unauthorized. rewrite Hs1. unfold pc_of.
  etransitivity; [apply (f_equal (fmap c_pc) Hd)|]. vm_compute. reflexivity.
Defined.

(** ** Installing the interceptor *)

Lemma load_module_ok fetch0 next0 :
  (fetch0 < next0)%nat -> host_ok (load_module fetch0 next0).
Proof. intros H. repeat split; cbn; auto. Qed.

Lemma install_cases h :
  (globalFetch h = originalFetch h /\
   installFetchInterceptor h =
     {| globalFetch := next_ref h; originalFetch := originalFetch h;
        interceptors := next_ref h :: interceptors h;
        next_ref := S (next_ref h) |}) \/
  (globalFetch h <> originalFetch h /\ installFetchInterceptor h = h).
Proof.
  unfold installFetchInterceptor.
  destruct (Nat.eqb_spec (globalFetch h) (originalFetch h)); cbn; auto.
Qed.

Lemma install_ok h : host_ok h -> host_ok (installFetchInterceptor h).
Proof.
  intros (Hg & Ho & Hi).
  destruct (install_cases h) as [[_ ->]|[_ ->]]; [|repeat split; assumption].
  repeat split; cbn; try lia.
  constructor; [lia|].
  eapply Forall_impl; [exact Hi|]. cbn. intros; lia.
Qed.

Lemma original_not_interceptor h :
  host_ok h -> existsb (Nat.eqb (originalFetch h)) (interceptors h) = false.
Proof.
  intros (_ & _ & Hi). induction Hi as [|w ws Hw _ IH]; [reflexivity|].
  cbn. rewrite IH. destruct (Nat.eqb_spec (originalFetch h) w); [lia|reflexivity].
Qed.

Lemma wrapper_depth_ok h f :
  host_ok h ->
  wrapper_depth 2 h f
  = Some (if existsb (Nat.eqb f) (interceptors h) then 1%nat else 0%nat).
Proof.
  intros Hok. cbn. unfold callee.
  destruct (existsb (Nat.eqb f) (interceptors h)); [|reflexivity].
  rewrite (original_not_interceptor h Hok). reflexivity.
Qed.

(** C7: in a host whose references name existing objects, installing the
    interceptor a second time changes nothing. An installation that finds
    [globalThis.fetch] equal to the saved original leaves it different from
    the original, which is what the second installation detects. Every
    closure of the interceptor hands its requests to the saved original,
    which is not a closure of the interceptor, so a call of
    [globalThis.fetch] passes through the interceptor at most once before
    it reaches the transport. *)
Theorem install_idempotent (h : Host) :
  host_ok h ->
  let h1 := installFetchInterceptor h in
  installFetchInterceptor h1 = h1 /\
  (globalFetch h = originalFetch h ->
   globalFetch h1 <> originalFetch h1 /\ In (globalFetch h1) (interceptors h1)) /\
  originalFetch h1 = originalFetch h /\
  (forall w, In w (interceptors h1) ->
             callee h1 w = Some (originalFetch h) /\ originalFetch h <> w /\
             callee h1 (originalFetch h) = None) /\
  exists n, wrapper_depth 2 h1 (globalFetch h1) = Some n /\ (n <= 1)%nat.
Proof.
  intros Hok h1.
  assert (Hok1 : host_ok h1) by (apply install_ok; exact Hok).
  assert (Horig : originalFetch h1 = originalFetch h).
  { subst h1. destruct (install_cases h) as [[_ ->]|[_ ->]]; reflexivity. }
  split.
  { subst h1. destruct (install_cases h) as [[He ->]|[Hne ->]].
    - unfold installFetchInterceptor. cbn.
      destruct Hok as (_ & Ho & _).
      destruct (Nat.eqb_spec (next_ref h) (originalFetch h)); [lia|reflexivity].
    - unfold installFetchInterceptor.
      destruct (Nat.eqb_spec (globalFetch h) (originalFetch h));
        [contradiction|reflexivity]. }
  split.
  { intros He. subst h1.
    destruct (install_cases h) as [[_ ->]|[Hne _]]; [|contradiction].
    cbn. destruct Hok as (_ & Ho & _). split; [lia|left; reflexivity]. }
  split; [exact Horig|].
  split.
  { intros w Hw. unfold callee. rewrite Horig.
    pose proof (original_not_interceptor h1 Hok1) as Hn. rewrite Horig in Hn.
    rewrite Hn.
    assert (Hex : existsb (Nat.eqb w) (interceptors h1) = true).
    { apply existsb_exists. exists w. split; [exact Hw|apply Nat.eqb_refl]. }
    rewrite Hex. repeat split.
    intros E. rewrite <- E in Hex. rewrite Hex in Hn. discriminate. }
  rewrite (wrapper_depth_ok h1 _ Hok1).
  eexists. split; [reflexivity|].
  destruct (existsb _ _); lia.
Qed.

Lemma install_idempotent_witness :
  installFetchInterceptor (installFetchInterceptor (load_module 0 1))
  = installFetchInterceptor (load_module 0 1).
Proof.
  refine (proj1 (install_idempotent (load_module 0 1) _)).
  repeat split; cbn; auto.
Defined.

(** ** [stripJsonComments] *)

(** Induction on a string two characters at a time, as the loop reads
    it. *)
Lemma string_pair_ind (P : string -> Prop) :
  P EmptyString ->
  (forall c, P (String c EmptyString)) ->
  (forall c n s, P s -> P (String n s) -> P (String c (String n s))) ->
  forall s, P s.
Proof.
  intros H0 H1 H2 s.
  assert (H : P s /\ forall c, P (String c s)).
  { induction s as [|n s [IH1 IH2]]; [split; [exact H0|exact H1]|].
    split; [apply IH2|]. intros c. apply H2; [exact IH1|apply IH2]. }
  exact (proj1 H).
Qed.

Lemma strip_plain_quote rest :
  strip Plain (String quote rest) = String quote (strip InStringLit rest).
Proof. reflexivity. Qed.

Lemma strip_plain_line rest :
  strip Plain (String "/" (String "/" rest)) = strip InLineComment rest.
Proof. reflexivity. Qed.

Lemma strip_plain_block rest :
  strip Plain (String "/" (String "*" rest)) = strip InBlockComment rest.
Proof. reflexivity. Qed.

Lemma strip_lit_quote rest :
  strip InStringLit (String quote rest) = String quote (strip Plain rest).
Proof. destruct rest; reflexivity. Qed.

Lemma strip_lit_escape n rest :
  strip InStringLit (String backslash (String n rest))
  = String backslash (String n (strip InStringLit rest)).
Proof. reflexivity. Qed.

Lemma strip_lit_char c rest :
  Ascii.eqb c backslash = false -> Ascii.eqb c quote = false ->
  strip InStringLit (String c rest) = String c (strip InStringLit rest).
Proof. intros H1 H2. destruct rest; cbn; rewrite ?H1, H2; reflexivity. Qed.

Lemma strip_plain_char c rest :
  Ascii.eqb c quote = false -> Ascii.eqb c "/" = false ->
  strip Plain (String c rest) = String c (strip Plain rest).
Proof. intros H1 H2. destruct rest; cbn; rewrite H1, ?H2; reflexivity. Qed.

Lemma strip_line_char c rest :
  Ascii.eqb c newline = false ->
  strip InLineComment (String c rest) = strip InLineComment rest.
Proof. intros H. cbn. rewrite H. reflexivity. Qed.

Lemma strip_line_newline rest :
  strip InLineComment (String newline rest) = String newline (strip Plain rest).
Proof. reflexivity. Qed.

(** String literals pass unchanged. *)
Lemma strip_literal_body b : forall rest,
  literal_body b = true ->
  strip InStringLit (b +:+ String quote rest)
  = b +:+ String quote (strip Plain rest).
Proof.
  induction b as [| c | c n b IH1 IH2] using string_pair_ind; intros rest Hb.
  - apply strip_lit_quote.
  - cbn in Hb. destruct (Ascii.eqb c backslash) eqn:Ebs; [discriminate|].
    destruct (Ascii.eqb c quote) eqn:Eq; [discriminate|].
    change (strip InStringLit (String c (String quote rest))
            = String c (String quote (strip Plain rest))).
    rewrite (strip_lit_char c _ Ebs Eq), strip_lit_quote. reflexivity.
  - cbn [literal_body] in Hb.
    destruct (Ascii.eqb c backslash) eqn:Ebs.
    + apply Ascii.eqb_eq in Ebs. subst c.
      change (strip InStringLit
                (String backslash (String n (b +:+ String quote rest)))
              = String backslash (String n (b +:+ String quote (strip Plain rest)))).
      rewrite strip_lit_escape, (IH1 rest Hb). reflexivity.
    + apply andb_true_iff in Hb as [Hq Hb]. apply negb_true_iff in Hq.
      change (strip InStringLit (String c (String n b +:+ String quote rest))
              = String c (String n b +:+ String quote (strip Plain rest))).
      rewrite (strip_lit_char c _ Ebs Hq), (IH2 rest Hb). reflexivity.
Qed.

(** X4: a string literal is copied as it is, whatever it holds: the
    text between two quotes, in which no quote stands unescaped, comes out
    unchanged, also where it holds [//] or [/*], and the text after the
    closing quote is read outside a string again. *)
Theorem string_literals_are_kept (b rest : string) :
  literal_body b = true ->
  strip Plain (String quote (b +:+ String quote rest))
  = String quote (b +:+ String quote (strip Plain rest)).
Proof.
  intros Hb. rewrite strip_plain_quote, (strip_literal_body b rest Hb).
  reflexivity.
Qed.

Lemma string_literals_are_kept_witness :
  strip Plain (String quote ("http://x /* y */" +:+ String quote " // z"))
  = String quote ("http://x /* y */" +:+ String quote (strip Plain " // z")).
Proof. apply (string_literals_are_kept "http://x /* y */" " // z"). reflexivity. Defined.

Lemma strip_line_body c : forall rest,
  has_char newline c = false ->
  strip InLineComment (c +:+ String newline rest)
  = String newline (strip Plain rest) /\
  strip InLineComment c = EmptyString.
Proof.
  induction c as [|a c IH]; intros rest Hc; [split; reflexivity|].
  cbn [has_char] in Hc. apply orb_false_iff in Hc as [Ha Hc].
  destruct (IH rest Hc) as [IH1 IH2].
  change (String a c +:+ String newline rest)
    with (String a (c +:+ String newline rest)).
  rewrite !(strip_line_char a _ Ha). split; assumption.
Qed.

Lemma strip_block_step a rest :
  no_close (String a rest) = true ->
  strip InBlockComment (String a rest) = strip InBlockComment rest.
Proof.
  destruct rest as [|n rest]; [reflexivity|].
  cbn [no_close]. intros H. apply andb_true_iff in H as [H _].
  apply negb_true_iff in H. cbn [strip]. rewrite H. reflexivity.
Qed.

Lemma no_close_tail a rest : no_close (String a rest) = true -> no_close rest = true.
Proof.
  destruct rest as [|n rest]; [reflexivity|].
  cbn [no_close]. intros H. apply andb_true_iff in H as [_ H]. exact H.
Qed.

Lemma strip_block_close rest :
  strip InBlockComment (String "*" (String "/" rest)) = strip Plain rest.
Proof. reflexivity. Qed.

Lemma strip_block_skip a n rest :
  Ascii.eqb a "*" && Ascii.eqb n "/" = false ->
  strip InBlockComment (String a (String n rest))
  = strip InBlockComment (String n rest).
Proof. intros H. cbn [strip]. rewrite H. reflexivity. Qed.

Lemma strip_block_body c : forall rest,
  no_close c = true ->
  strip InBlockComment (c +:+ String "*" (String "/" rest)) = strip Plain rest /\
  strip InBlockComment c = EmptyString.
Proof.
  induction c as [|a c IH]; intros rest Hc; [split; reflexivity|].
  destruct (IH rest (no_close_tail a c Hc)) as [IH1 IH2].
  split.
  - rewrite <- IH1. destruct c as [|n c].
    + apply strip_block_skip. apply andb_false_r.
    + apply strip_block_skip.
      cbn [no_close] in Hc. apply andb_true_iff in Hc as [H _].
      apply negb_true_iff in H. exact H.
  - rewrite strip_block_step by exact Hc. exact IH2.
Qed.

(** X5: a line comment is removed up to its newline, which is kept, and a
    block comment is removed with its delimiters. *)
Theorem comments_are_removed (c rest : string) :
  (has_char newline c = false ->
   strip Plain (String "/" (String "/" (c +:+ String newline rest)))
   = String newline (strip Plain rest)) /\
  (no_close c = true ->
   strip Plain (String "/" (String "*" (c +:+ String "*" (String "/" rest))))
   = strip Plain rest).
Proof.
  split; intros Hc.
  - rewrite strip_plain_line. apply strip_line_body. exact Hc.
  - rewrite strip_plain_block. apply strip_block_body. exact Hc.
Qed.

Lemma comments_are_removed_witness :
  strip Plain (String "/" (String "/" (" note" +:+ String newline "1")))
  = String newline (strip Plain "1").
Proof. apply (proj1 (comments_are_removed " note" "1")). reflexivity. Defined.

(** X6: a comment that is never closed takes the rest of the text with
    it: after [//] without a later newline, or after [/*] without a later
    [*/], nothing more is written. *)
Theorem unterminated_comment_drops_the_rest (c : string) :
  (has_char newline c = false ->
   strip Plain (String "/" (String "/" c)) = EmptyString) /\
  (no_close c = true ->
   strip Plain (String "/" (String "*" c)) = EmptyString).
Proof.
  split; intros Hc.
  - rewrite strip_plain_line. apply (strip_line_body c EmptyString Hc).
  - rewrite strip_plain_block. apply (strip_block_body c EmptyString Hc).
Qed.

Lemma unterminated_comment_drops_the_rest_witness :
  strip Plain (String "/" (String "*" " note * / 1")) = EmptyString.
Proof.
  apply (proj2 (unterminated_comment_drops_the_rest " note * / 1")). reflexivity.
Defined.

Lemma strip_plain_keep c n rest :
  Ascii.eqb c quote = false ->
  Ascii.eqb c "/" && (Ascii.eqb n "/" || Ascii.eqb n "*") = false ->
  strip Plain (String c (String n rest)) = String c (strip Plain (String n rest)).
Proof.
  intros Hq H. cbn [strip]. rewrite Hq.
  destruct (Ascii.eqb c "/"); [|reflexivity].
  cbn in H. apply orb_false_iff in H as [H1 H2]. rewrite H1, H2. reflexivity.
Qed.

(** Outside strings and comments a character other than [/] is written at
    once. *)
Lemma strip_plain_head n rest :
  Ascii.eqb n "/" = false ->
  exists out, strip Plain (String n rest) = String n out.
Proof.
  intros H. destruct (Ascii.eqb n quote) eqn:Eq.
  - apply Ascii.eqb_eq in Eq. subst n. eexists. apply strip_plain_quote.
  - eexists. apply strip_plain_char; assumption.
Qed.

Lemma strip_twice s :
  strip Plain (strip Plain s) = strip Plain s /\
  strip InStringLit (strip InStringLit s) = strip InStringLit s /\
  strip Plain (strip InLineComment s) = strip InLineComment s /\
  strip Plain (strip InBlockComment s) = strip InBlockComment s.
Proof.
  induction s as [| c | c n s IH1 IH2] using string_pair_ind.
  - repeat split; reflexivity.
  - repeat split.
    + cbn. destruct (Ascii.eqb c quote) eqn:E; cbn; rewrite E; reflexivity.
    + cbn. destruct (Ascii.eqb c quote) eqn:E; cbn; rewrite E; reflexivity.
    + cbn. destruct (Ascii.eqb c newline) eqn:E; [|reflexivity].
      apply Ascii.eqb_eq in E. subst c. reflexivity.
  - destruct IH1 as (P1 & L1 & C1 & B1). destruct IH2 as (P2 & L2 & C2 & B2).
    split; [|split; [|split]].
    + destruct (Ascii.eqb c quote) eqn:Eq.
      { apply Ascii.eqb_eq in Eq. subst c.
        rewrite !strip_plain_quote. rewrite L2. reflexivity. }
      destruct (Ascii.eqb c "/") eqn:Es.
      * apply Ascii.eqb_eq in Es. subst c.
        destruct (Ascii.eqb n "/") eqn:En1.
        { apply Ascii.eqb_eq in En1. subst n. rewrite strip_plain_line. exact C1. }
        destruct (Ascii.eqb n "*") eqn:En2.
        { apply Ascii.eqb_eq in En2. subst n. rewrite strip_plain_block. exact B1. }
        rewrite (strip_plain_keep "/" n s) by (cbn; rewrite ?En1, ?En2; reflexivity).
        destruct (strip_plain_head n s En1) as [out Hout].
        rewrite Hout in P2 |- *.
        rewrite (strip_plain_keep "/" n out) by (cbn; rewrite ?En1, ?En2; reflexivity).
        rewrite P2. reflexivity.
      * rewrite !(strip_plain_char c _ Eq Es). rewrite P2. reflexivity.
    + destruct (Ascii.eqb c backslash) eqn:Eb.
      { apply Ascii.eqb_eq in Eb. subst c.
        rewrite !strip_lit_escape. rewrite L1. reflexivity. }
      destruct (Ascii.eqb c quote) eqn:Eq.
      { apply Ascii.eqb_eq in Eq. subst c.
        rewrite !strip_lit_quote. rewrite P2. reflexivity. }
      rewrite !(strip_lit_char c _ Eb Eq). rewrite L2. reflexivity.
    + destruct (Ascii.eqb c newline) eqn:En.
      { apply Ascii.eqb_eq in En. subst c. rewrite strip_line_newline.
        rewrite (strip_plain_char newline) by reflexivity. rewrite P2. reflexivity. }
      rewrite (strip_line_char c _ En). exact C2.
    + destruct (Ascii.eqb c "*" && Ascii.eqb n "/") eqn:E.
      { apply andb_true_iff in E as [E1 E2].
        apply Ascii.eqb_eq in E1, E2. subst c n.
        rewrite strip_block_close. exact P1. }
      rewrite (strip_block_skip c n s E). exact B2.
Qed.

(** X7: stripping a text that has been stripped changes nothing. *)
Theorem stripJsonComments_idempotent (content : string) :
  stripJsonComments (stripJsonComments content) = stripJsonComments content.
Proof. apply strip_twice. Qed.

Lemma strip_without_slash s :
  has_char "/" s = false ->
  strip Plain s = s /\ strip InStringLit s = s.
Proof.
  induction s as [| c | c n s IH1 IH2] using string_pair_ind; intros H.
  - split; reflexivity.
  - split; cbn; destruct (Ascii.eqb c quote); reflexivity.
  - assert (Hc : Ascii.eqb c "/" = false).
    { cbn [has_char] in H. apply orb_false_iff in H as [H _]. exact H. }
    assert (Hns : has_char "/" (String n s) = false).
    { cbn [has_char] in H |- *. apply orb_false_iff in H as [_ H]. exact H. }
    assert (Hs : has_char "/" s = false).
    { cbn [has_char] in Hns. apply orb_false_iff in Hns as [_ Hns]. exact Hns. }
    destruct (IH1 Hs) as [P1 L1]. destruct (IH2 Hns) as [P2 L2].
    split.
    + destruct (Ascii.eqb c quote) eqn:Eq.
      { apply Ascii.eqb_eq in Eq. subst c. rewrite strip_plain_quote, L2.
        reflexivity. }
      rewrite (strip_plain_char c _ Eq Hc), P2. reflexivity.
    + destruct (Ascii.eqb c backslash) eqn:Eb.
      { apply Ascii.eqb_eq in Eb. subst c. rewrite strip_lit_escape, L1.
        reflexivity. }
      destruct (Ascii.eqb c quote) eqn:Eq.
      { apply Ascii.eqb_eq in Eq. subst c. rewrite strip_lit_quote, P2.
        reflexivity. }
      rewrite (strip_lit_char c _ Eb Eq), L2. reflexivity.
Qed.

(** X8: a text without any slash is returned as it is. *)
Theorem content_without_slash_is_unchanged (content : string) :
  has_char "/" content = false -> stripJsonComments content = content.
Proof. intros H. exact (proj1 (strip_without_slash content H)). Qed.

Lemma content_without_slash_is_unchanged_witness :
  stripJsonComments "[1, 2]" = "[1, 2]".
Proof. apply content_without_slash_is_unchanged. reflexivity. Defined.

(** ** Registration *)

Lemma map_get_set_eq {A : Type} k (v : A) m : map_get k (map_set k v m) = Some v.
Proof.
  unfold map_get. induction m as [|[k' v'] m IH]; cbn.
  - rewrite String.eqb_refl. reflexivity.
  - destruct (String.eqb k' k) eqn:E; cbn.
    + rewrite String.eqb_refl. reflexivity.
    + rewrite E. exact IH.
Qed.

Lemma map_get_set_ne {A : Type} k k' (v : A) m :
  k' <> k -> map_get k (map_set k' v m) = map_get k m.
Proof.
  intros Hne. unfold map_get. induction m as [|[k0 v0] m IH]; cbn.
  - destruct (String.eqb_spec k' k); [contradiction|reflexivity].
  - destruct (String.eqb_spec k0 k') as [->|Hk]; cbn.
    + destruct (String.eqb_spec k' k); [contradiction|reflexivity].
    + destruct (String.eqb k0 k); [reflexivity|exact IH].
Qed.

Lemma map_set_same {A : Type} k (v : A) m :
  map_get k m = Some v -> map_set k v m = m.
Proof.
  unfold map_get. induction m as [|[k' v'] m IH]; cbn; [discriminate|].
  destruct (String.eqb_spec k' k) as [->|Hk]; cbn.
  - intros [= ->]. reflexivity.
  - intros H. rewrite (IH H). reflexivity.
Qed.

Lemma map_set_keys {A : Type} k (v : A) m :
  map fst (map_set k v m)
  = if existsb (String.eqb k) (map fst m) then map fst m else map fst m ++ [k].
Proof.
  induction m as [|[k' v'] m IH]; cbn; [reflexivity|].
  rewrite (String.eqb_sym k k').
  destruct (String.eqb_spec k' k) as [->|Hk]; cbn; [reflexivity|].
  rewrite IH. destruct (existsb _ _); reflexivity.
Qed.

Lemma map_set_elem {A : Type} k (v : A) m kv :
  In kv (map_set k v m) -> kv = (k, v) \/ In kv m.
Proof.
  induction m as [|[k' v'] m IH]; cbn.
  - intros [<-|[]]. auto.
  - destruct (String.eqb k' k); cbn.
    + intros [<-|H]; auto.
    + intros [<-|H]; auto. destruct (IH H); auto.
Qed.

Lemma registrable_baseURL pc e :
  registrable pc = Some e -> baseURL e <> "".
Proof.
  unfold registrable.
  destruct (pc_options pc ≫= o_oauth) as [oa|]; [|discriminate].
  destruct (pc_options pc ≫= o_baseURL) as [[|c b]|]; cbn; try discriminate.
  intros [= <-]. discriminate.
Qed.

Lemma NoDup_snoc (l : list string) k :
  NoDup l -> existsb (String.eqb k) l = false -> NoDup (l ++ [k]).
Proof.
  intros Hl Hk. apply NoDup_app. split; [exact Hl|]. split.
  - intros x Hx Hx'. apply list_elem_of_singleton in Hx'. subst x.
    assert (existsb (String.eqb k) l = true).
    { apply existsb_exists. exists k. split; [apply list_elem_of_In; exact Hx|].
      apply String.eqb_refl. }
    congruence.
  - apply NoDup_singleton.
Qed.

Lemma register_ok reg entry : registry_ok reg -> registry_ok (register reg entry).
Proof.
  intros [Hnd Hb]. unfold register.
  destruct (registrable (snd entry)) as [e|] eqn:E; [|split; assumption].
  split.
  - rewrite map_set_keys. destruct (existsb _ _) eqn:Ex; [exact Hnd|].
    apply NoDup_snoc; assumption.
  - intros id e' Hin. apply map_set_elem in Hin as [[= -> ->]|Hin].
    + eapply registrable_baseURL, E.
    + eapply Hb, Hin.
Qed.

Lemma register_all_ok entries : forall reg,
  registry_ok reg -> registry_ok (fold_left register entries reg).
Proof.
  induction entries as [|e es IH]; intros reg H; [exact H|].
  cbn. apply IH. apply register_ok. exact H.
Qed.

Lemma map_set_fresh {A : Type} k (v : A) m :
  existsb (String.eqb k) (map fst m) = false -> map_set k v m = m ++ [(k, v)].
Proof.
  induction m as [|[k' v'] m IH]; cbn; [reflexivity|].
  rewrite (String.eqb_sym k k'). destruct (String.eqb k' k); cbn; [discriminate|].
  intros H. rewrite (IH H). reflexivity.
Qed.

Lemma registrable_entries_keys entries id e :
  In (id, e) (registrable_entries entries) -> In id (map fst entries).
Proof.
  unfold registrable_entries. induction entries as [|[k pc] es IH]; cbn; [tauto|].
  destruct (registrable pc) as [e'|]; cbn.
  - intros [[= -> ->]|H]; auto.
  - auto.
Qed.

Lemma not_in_existsb (l : list string) k :
  ~ In k l -> existsb (String.eqb k) l = false.
Proof.
  intros H. destruct (existsb (String.eqb k) l) eqn:E; [|reflexivity].
  apply existsb_exists in E as (x & Hx & Hk). apply String.eqb_eq in Hk.
  subst x. contradiction.
Qed.

Lemma register_all_fresh entries : forall reg,
  NoDup (map fst entries) ->
  (forall k, In k (map fst entries) -> ~ In k (map fst reg)) ->
  fold_left register entries reg = reg ++ registrable_entries entries.
Proof.
  induction entries as [|[k pc] es IH]; intros reg Hnd Hdis.
  - cbn. rewrite app_nil_r. reflexivity.
  - cbn in Hnd. apply NoDup_cons in Hnd as [Hk Hnd].
    cbn [fold_left]. unfold register at 2. cbn [fst snd].
    unfold registrable_entries. cbn [omap list_omap fst snd].
    fold (registrable_entries es).
    destruct (registrable pc) as [e|] eqn:E; cbn.
    + rewrite map_set_fresh
        by (apply not_in_existsb, Hdis; left; reflexivity).
      rewrite IH; [rewrite <- app_assoc; reflexivity|exact Hnd|].
      intros k' Hk' Hin. rewrite map_app in Hin. apply in_app_or in Hin as [Hin|Hin].
      * apply (Hdis k'); [right; exact Hk'|exact Hin].
      * cbn in Hin. destruct Hin as [<-|[]].
        apply Hk. apply list_elem_of_In. exact Hk'.
    + apply IH; [exact Hnd|].
      intros k' Hk'. apply Hdis. right. exact Hk'.
Qed.

Lemma find_provider_app l1 l2 url :
  find_provider (l1 ++ l2) url
  = match find_provider l1 url with
    | Some r => Some r
    | None => find_provider l2 url
    end.
Proof.
  unfold find_provider. induction l1 as [|x l1 IH]; cbn; [reflexivity|].
  destruct (String.prefix (baseURL (snd x)) url); [reflexivity|exact IH].
Qed.

Lemma registrable_entries_elem entries id e :
  In (id, e) (registrable_entries entries) ->
  exists pc, In (id, pc) entries /\ registrable pc = Some e.
Proof.
  unfold registrable_entries. induction entries as [|[k pc] es IH]; cbn; [tauto|].
  destruct (registrable pc) as [e'|] eqn:E; cbn.
  - intros [[= -> ->]|H]; [exists pc; auto|].
    destruct (IH H) as (pc' & Hin & Hr). exists pc'. auto.
  - intros H. destruct (IH H) as (pc' & Hin & Hr). exists pc'. auto.
Qed.

Lemma find_provider_registrable_none entries url :
  (forall id pc e, In (id, pc) entries -> registrable pc = Some e ->
                   String.prefix (baseURL e) url = false) ->
  find_provider (registrable_entries entries) url = None.
Proof.
  intros H. apply find_provider_none. intros id e Hin.
  destruct (registrable_entries_elem entries id e Hin) as (pc & Hpc & Hr).
  exact (H id pc e Hpc Hr).
Qed.

Lemma registrable_entries_app l1 l2 :
  registrable_entries (l1 ++ l2) = registrable_entries l1 ++ registrable_entries l2.
Proof. unfold registrable_entries. apply omap_app. Qed.

(** X9: the provider of a request is the first entry of the configuration,
    in the order of [Object.entries], that has an [oauth] block and a
    non-empty [baseURL] which the URL starts with; entries without one are
    passed over, and without such an entry no provider matches. *)
Theorem first_registered_wins (entries : list (string * ProviderConfig))
    (h : Host) (url : string) :
  NoDup (map fst entries) ->
  let oauthProviders :=
    (OAuthProviderPlugin (Some {| provider := Some entries |}) ([], h)).1 in
  (forall l1 id pc l2 e,
      entries = l1 ++ (id, pc) :: l2 ->
      registrable pc = Some e ->
      String.prefix (baseURL e) url = true ->
      (forall id' pc' e', In (id', pc') l1 -> registrable pc' = Some e' ->
                          String.prefix (baseURL e') url = false) ->
      find_provider oauthProviders url = Some (id, e)) /\
  ((forall id pc e, In (id, pc) entries -> registrable pc = Some e ->
                    String.prefix (baseURL e) url = false) ->
   find_provider oauthProviders url = None).
Proof.
  intros Hnd oauthProviders.
  assert (Hreg : oauthProviders = registrable_entries entries).
  { subst oauthProviders. unfold OAuthProviderPlugin. cbn [mbind option_bind provider fst].
    apply (register_all_fresh entries [] Hnd). intros k _ []. }
  rewrite Hreg. clear Hreg oauthProviders. split.
  - intros l1 id pc l2 e -> He Hp Hl1.
    rewrite registrable_entries_app, find_provider_app.
    rewrite (find_provider_registrable_none l1 url Hl1).
    unfold registrable_entries at 1. cbn. rewrite He. cbn.
    unfold find_provider. cbn. rewrite Hp. reflexivity.
  - apply find_provider_registrable_none.
Qed.

Lemma first_registered_wins_witness :
  find_provider
    (OAuthProviderPlugin (Some sample_config) ([], load_module 0 1)).1
    (url_of models)
  = Some ("gateway", gateway).
Proof.
  refine (proj1 (first_registered_wins _ (load_module 0 1) (url_of models) _)
            [("bare", {| pc_npm := None; pc_name := None; pc_options := None |})]
            "gateway" _ [] gateway eq_refl _ _ _).
  - apply (bool_decide_unpack (NoDup ["bare"; "gateway"])). vm_compute. exact I.
  - reflexivity.
  - vm_compute. reflexivity.
  - intros id' pc' e' [[= <- <-]|[]]. discriminate.
Defined.

Lemma find_provider_some reg url id e :
  find_provider reg url = Some (id, e) ->
  In (id, e) reg /\ String.prefix (baseURL e) url = true.
Proof. unfold find_provider. intros H. apply find_some in H. exact H. Qed.

(** X10: whatever configuration the plugin is given, and however often, the
    registry never holds two entries with one identifier nor an entry
    with an empty [baseURL]; so a provider that matches a request has a
    non-empty [baseURL] that the URL starts with. *)
Theorem registry_stays_sound (config : option OpenCodeConfig)
    (reg : list (string * ProviderEntry)) (h : Host) :
  NoDup (map fst reg) ->
  (forall id e, In (id, e) reg -> baseURL e <> "") ->
  let reg' := (OAuthProviderPlugin config (reg, h)).1 in
  NoDup (map fst reg') /\
  (forall id e, In (id, e) reg' -> baseURL e <> "") /\
  forall url id e,
    find_provider reg' url = Some (id, e) ->
    baseURL e <> "" /\ String.prefix (baseURL e) url = true /\ url <> "".
Proof.
  intros Hnd Hb reg'.
  assert (Hok : registry_ok reg').
  { subst reg'. unfold OAuthProviderPlugin.
    destruct (config ≫= provider) as [entries|]; cbn [fst].
    - apply register_all_ok. split; assumption.
    - split; assumption. }
  destruct Hok as [Hnd' Hb']. split; [exact Hnd'|]. split; [exact Hb'|].
  intros url id e Hfind. apply find_provider_some in Hfind as [Hin Hp].
  pose proof (Hb' id e Hin) as Hne. split; [exact Hne|]. split; [exact Hp|].
  intros ->. destruct (baseURL e); [contradiction|]. cbn in Hp. discriminate.
Qed.

Lemma registry_stays_sound_witness :
  String.prefix (baseURL gateway) (url_of models) = true.
Proof.
  refine (proj1 (proj2 (proj2 (proj2
            (registry_stays_sound (Some sample_config) [] (load_module 0 1)
               (NoDup_nil_2 : NoDup (map fst [])) (fun _ _ H => match H with end)))
            (url_of models) "gateway" gateway _))).
  vm_compute. reflexivity.
Defined.

Lemma register_length reg entry :
  (length reg <= length (register reg entry))%nat /\
  (forall e, registrable (snd entry) = Some e ->
             (0 < length (register reg entry))%nat).
Proof.
  unfold register. destruct (registrable (snd entry)) as [e|].
  - assert (H : (length reg <= length (map_set (fst entry) e reg))%nat /\
                (0 < length (map_set (fst entry) e reg))%nat).
    { generalize (fst entry). intros k.
      induction reg as [|[k' v'] reg IH]; cbn; [lia|].
      destruct (String.eqb k' k); cbn; lia. }
    split; [apply H|intros; apply H].
  - split; [lia|discriminate].
Qed.

Lemma register_all_length entries : forall reg,
  (length reg <= length (fold_left register entries reg))%nat.
Proof.
  induction entries as [|e es IH]; intros reg; cbn; [lia|].
  pose proof (proj1 (register_length reg e)). pose proof (IH (register reg e)). lia.
Qed.

Lemma register_all_nonempty entries : forall reg id pc e,
  In (id, pc) entries -> registrable pc = Some e ->
  (0 < length (fold_left register entries reg))%nat.
Proof.
  induction entries as [|x es IH]; intros reg id pc e Hin Hr; [contradiction|].
  cbn. destruct Hin as [->|Hin].
  - pose proof (proj2 (register_length reg (id, pc)) e Hr).
    pose proof (register_all_length es (register reg (id, pc))). lia.
  - eapply IH; eassumption.
Qed.

Lemma register_all_none entries : forall reg,
  (forall id pc, In (id, pc) entries -> registrable pc = None) ->
  fold_left register entries reg = reg.
Proof.
  induction entries as [|[k pc] es IH]; intros reg H; [reflexivity|].
  cbn. unfold register at 2. cbn. rewrite (H k pc) by (left; reflexivity).
  apply IH. intros id pc' Hin. apply (H id pc'). right. exact Hin.
Qed.

(** X11: on a freshly loaded module the plugin leaves [globalThis.fetch]
    alone when there is no configuration, no [provider] object, or no
    entry with both an [oauth] block and a non-empty [baseURL]; with such an
    entry it replaces [globalThis.fetch] by the interceptor. *)
Theorem plugin_installs_only_with_providers (config : option OpenCodeConfig)
    (fetch0 next0 : nat) :
  (fetch0 < next0)%nat ->
  let h := load_module fetch0 next0 in
  let st := OAuthProviderPlugin config ([], h) in
  (config ≫= provider = None -> st = ([], h)) /\
  (forall entries,
      config ≫= provider = Some entries ->
      (forall id pc, In (id, pc) entries -> registrable pc = None) ->
      st = ([], h)) /\
  (forall entries id pc e,
      config ≫= provider = Some entries ->
      In (id, pc) entries -> registrable pc = Some e ->
      st.1 <> [] /\
      globalFetch st.2 <> fetch0 /\ originalFetch st.2 = fetch0 /\
      In (globalFetch st.2) (interceptors st.2)).
Proof.
  intros Hlt h st. subst st. unfold OAuthProviderPlugin. split; [|split].
  - intros ->. reflexivity.
  - intros entries -> Hnone. cbn [fst snd].
    rewrite (register_all_none entries [] Hnone). reflexivity.
  - intros entries id pc e -> Hin Hr. cbn [fst snd].
    pose proof (register_all_nonempty entries [] id pc e Hin Hr) as Hlen.
    split.
    { intros E. rewrite E in Hlen. cbn in Hlen. lia. }
    destruct (Nat.ltb_spec 0 (length (fold_left register entries []))); [|lia].
    subst h. unfold installFetchInterceptor, load_module.
    cbn [globalFetch originalFetch next_ref interceptors snd].
    rewrite Nat.eqb_refl. cbn.
    split; [lia|]. split; [reflexivity|]. left. reflexivity.
Qed.

Lemma plugin_installs_only_with_providers_witness :
  originalFetch (OAuthProviderPlugin (Some sample_config) ([], load_module 0 1)).2
  = 0%nat.
Proof.
  refine (proj1 (proj2 (proj2
            (proj2 (proj2 (plugin_installs_only_with_providers
                             (Some sample_config) 0 1 _))
               _ "gateway" _ gateway eq_refl _ _)))).
  - lia.
  - right. left. reflexivity.
  - reflexivity.
Defined.

Lemma register_other_key reg entry k :
  fst entry <> k -> map_get k (register reg entry) = map_get k reg.
Proof.
  intros Hne. unfold register. destruct (registrable (snd entry)); [|reflexivity].
  apply map_get_set_ne. exact Hne.
Qed.

Lemma register_all_other_key entries : forall reg k,
  ~ In k (map fst entries) ->
  map_get k (fold_left register entries reg) = map_get k reg.
Proof.
  induction entries as [|x es IH]; intros reg k Hk; [reflexivity|].
  cbn [fold_left]. rewrite IH by (intros H; apply Hk; right; exact H).
  apply register_other_key. intros E. apply Hk. left. exact E.
Qed.

Lemma register_all_get entries : forall reg k pc v,
  NoDup (map fst entries) ->
  In (k, pc) entries -> registrable pc = Some v ->
  map_get k (fold_left register entries reg) = Some v.
Proof.
  induction entries as [|x es IH]; intros reg k pc v Hnd Hin Hr; [contradiction|].
  cbn in Hnd. apply NoDup_cons in Hnd as [Hx Hnd]. cbn [fold_left].
  destruct Hin as [->|Hin].
  - rewrite register_all_other_key
      by (intros H; apply Hx; apply list_elem_of_In; exact H).
    unfold register. cbn. rewrite Hr. apply map_get_set_eq.
  - eapply IH; eassumption.
Qed.

Lemma register_all_fixed entries : forall reg,
  (forall x, In x entries -> register reg x = reg) ->
  fold_left register entries reg = reg.
Proof.
  induction entries as [|x es IH]; intros reg H; [reflexivity|].
  cbn [fold_left]. rewrite (H x) by (left; reflexivity).
  apply IH. intros y Hy. apply H. right. exact Hy.
Qed.

Lemma install_twice h :
  host_ok h ->
  installFetchInterceptor (installFetchInterceptor h) = installFetchInterceptor h.
Proof.
  intros (_ & Ho & _).
  destruct (install_cases h) as [[He ->]|[Hne ->]]; unfold installFetchInterceptor.
  - cbn. destruct (Nat.eqb_spec (next_ref h) (originalFetch h)); [lia|reflexivity].
  - destruct (Nat.eqb_spec (globalFetch h) (originalFetch h));
      [contradiction|reflexivity].
Qed.

(** X12: running the plugin a second time on the same configuration changes
    neither the registry nor [globalThis.fetch]. *)
Theorem plugin_twice (config : option OpenCodeConfig)
    (st : list (string * ProviderEntry) * Host) :
  host_ok st.2 ->
  (forall entries, config ≫= provider = Some entries -> NoDup (map fst entries)) ->
  OAuthProviderPlugin config (OAuthProviderPlugin config st)
  = OAuthProviderPlugin config st.
Proof.
  intros Hok Hnd. unfold OAuthProviderPlugin.
  destruct (config ≫= provider) as [entries|] eqn:E; [|reflexivity].
  specialize (Hnd entries eq_refl). cbn [fst snd].
  assert (Hfix : fold_left register entries (fold_left register entries st.1)
                 = fold_left register entries st.1).
  { apply register_all_fixed. intros [k pc] Hin. unfold register at 1. cbn [fst snd].
    destruct (registrable pc) as [v|] eqn:Hr; [|reflexivity].
    apply map_set_same. eapply register_all_get; eassumption. }
  rewrite Hfix. f_equal.
  destruct (0 <? length (fold_left register entries st.1))%nat; [|reflexivity].
  apply install_twice. exact Hok.
Qed.

Lemma plugin_twice_witness :
  OAuthProviderPlugin (Some sample_config)
    (OAuthProviderPlugin (Some sample_config) ([], load_module 0 1))
  = OAuthProviderPlugin (Some sample_config) ([], load_module 0 1).
Proof.
  apply (plugin_twice (Some sample_config) ([], load_module 0 1)).
  - repeat split; cbn; auto.
  - intros entries [= <-].
    apply (bool_decide_unpack (NoDup ["bare"; "gateway"])). vm_compute. exact I.
Defined.

(** ** The first request of a call *)






(** X15: a token whose issuer reports a lifetime of 60 seconds or less, other
    than 0, is never served from the cache: from the moment it is built
    every [getToken] call for its provider awaits a fetch, the pending one
    or a new one. A lifetime of 0, or none, makes the token usable for the
    next 59 minutes. *)
Theorem short_lived_token_is_never_reused (providerId : string)
    (config : OAuthConfig) (s : State) (now0 : Z) (data : TokenJson) :
  tokenCache s !! providerId ≫= token = Some (token_of_json now0 data) ->
  now0 <= now s ->
  (forall n, expires_in data = Some n -> n <> 0 -> n <= 60 ->
             exists s' p, getToken providerId config s = (s', Joined p) \/
                          getToken providerId config s = (s', Started p)) /\
  (expires_in data = Some 0 \/ expires_in data = None ->
   now s < now0 + 3540000 ->
   getToken providerId config s = (s, Cached (token_of_json now0 data))).
Proof.
  intros Ht Hnow. split.
  - intros n Hn H0 H60.
    assert (Hu : usable s (token_of_json now0 data) = false).
    { unfold usable, token_of_json, or_number, truthy_number. cbn. rewrite Hn.
      destruct (Z.eqb_spec n 0); [contradiction|]. cbn. lia. }
    unfold getToken. rewrite Ht, Hu.
    destruct (tokenCache s !! providerId ≫= promise) as [p|].
    + exists s, p. left. reflexivity.
    + eexists _, _. right. reflexivity.
  - intros H0 Hlt.
    assert (Hu : usable s (token_of_json now0 data) = true).
    { unfold usable, token_of_json, or_number, truthy_number. cbn.
      destruct H0 as [-> | ->]; cbn; lia. }
    unfold getToken. rewrite Ht, Hu. reflexivity.
Qed.

Lemma short_lived_token_is_never_reused_witness :
  exists s' p,
    getToken "gateway" gateway_oauth (state_after short_lived) = (s', Joined p) \/
    getToken "gateway" gateway_oauth (state_after short_lived) = (s', Started p).
Proof.
  refine (proj1 (short_lived_token_is_never_reused "gateway" gateway_oauth
                   (state_after short_lived) 0
                   {| access_token := "tok1"; token_type := None;
                      expires_in := Some 30 |} _ _) 30 eq_refl _ _).
  - vm_compute. reflexivity.
  - vm_compute. discriminate.
  - discriminate.
  - lia.
Defined.

(** ** One token request for each call of [fetchToken] *)

Lemma filter_length_insert {A : Type} (P : A -> bool) (l : list A) i x y :
  l !! i = Some x ->
  (length (List.filter P (<[i := y]> l)) + (if P x then 1 else 0)
   = length (List.filter P l) + (if P y then 1 else 0))%nat.
Proof.
  intros Hi. rewrite insert_take_drop by (eapply lookup_lt_Some, Hi).
  assert (Hl : l = take i l ++ x :: drop (S i) l)
    by (symmetry; apply take_drop_middle, Hi).
  set (a := take i l) in *. set (b := drop (S i) l) in *. clearbody a b.
  subst l. rewrite !List.filter_app, !length_app. cbn.
  destruct (P x), (P y); cbn; lia.
Qed.

Lemma requests_ok_getToken providerId config s :
  requests_ok s -> requests_ok (getToken providerId config s).1.
Proof.
  intros H. destruct (getToken_result providerId config s) as [[t E]|[[q E]|[_ E]]];
    rewrite E; cbn [fst]; try exact H.
  unfold requests_ok. cbn. rewrite List.filter_app, length_app. cbn.
  unfold requests_ok in H. lia.
Qed.

Lemma requests_ok_step providers s ev s' :
  step providers s ev = Some s' -> requests_ok s -> requests_ok s'.
Proof.
  intros Hstep Hok.
  destruct ev as [dt|input init|q|q reply|q|d|d reply]; cbn in Hstep.
  - injection Hstep as <-. exact Hok.
  - injection Hstep as <-. unfold interceptor.
    destruct (find_provider providers (url_of input)) as [[id cfg]|]; [|exact Hok].
    pose proof (requests_ok_getToken id (oauth cfg) s Hok) as H1.
    destruct (getToken id (oauth cfg) s) as [s1 a]. exact H1.
  - unfold fetchToken_send in Hstep.
    destruct (fetches s !! q) as [fq|] eqn:Hq; [|discriminate]. cbn in Hstep.
    destruct (f_phase fq) eqn:Hph; try discriminate. injection Hstep as <-.
    unfold requests_ok in *. cbn. rewrite length_app. cbn.
    pose proof (filter_length_insert past_logging (fetches s) q fq
                  {| f_config := f_config fq; f_phase := Requested;
                     f_frame := f_frame fq |} Hq) as H.
    assert (Hx : past_logging fq = false) by (unfold past_logging; rewrite Hph; reflexivity).
    rewrite Hx in H. cbn [past_logging f_phase] in H. lia.
  - unfold fetchToken_reply in Hstep.
    destruct (fetches s !! q) as [fq|] eqn:Hq; [|discriminate]. cbn in Hstep.
    destruct (f_phase fq) eqn:Hph; try discriminate. injection Hstep as <-.
    unfold requests_ok in *. cbn.
    pose proof (filter_length_insert past_logging (fetches s) q fq
                  {| f_config := f_config fq;
                     f_phase := Done (fetchToken_settle (now s) reply);
                     f_frame := f_frame fq |} Hq) as H.
    assert (Hx : past_logging fq = true) by (unfold past_logging; rewrite Hph; reflexivity).
    rewrite Hx in H. cbn [past_logging f_phase] in H. lia.
  - unfold getToken_resume in Hstep.
    destruct (fetches s !! q) as [fq|] eqn:Hq; [|discriminate]. cbn in Hstep.
    destruct (f_frame fq) as [frq|]; [|discriminate]. cbn in Hstep.
    destruct (f_phase fq) as [| |r] eqn:Hph; try discriminate.
    injection Hstep as <-.
    unfold requests_ok in *. cbn.
    pose proof (filter_length_insert past_logging (fetches s) q fq
                  {| f_config := f_config fq; f_phase := Done r;
                     f_frame := None |} Hq) as H.
    assert (Hx : past_logging fq = true) by (unfold past_logging; rewrite Hph; reflexivity).
    rewrite Hx in H. cbn [past_logging f_phase] in H. lia.
  - unfold interceptor_resume in Hstep.
    destruct (calls s !! d) as [c|]; [|discriminate]. cbn -[acquired] in Hstep.
    destruct (c_pc c); try discriminate;
      destruct (acquired s a) as [[t|e]|]; try discriminate;
      cbn -[headers_set headers_of_init] in Hstep; case_headers Hstep;
      injection Hstep as <-; exact Hok.
  - unfold interceptor_reply in Hstep.
    destruct (calls s !! d) as [c|]; [|discriminate]. cbn in Hstep.
    destruct (c_pc c); try discriminate.
    + destruct reply as [cause|res]; [injection Hstep as <-; exact Hok|].
      destruct (status res =? 401); [|injection Hstep as <-; exact Hok].
      pose proof (requests_ok_getToken providerId (oauth config)
                    (with_tokenCache (delete providerId) s) Hok) as H1.
      destruct (getToken providerId (oauth config)
                  (with_tokenCache (delete providerId) s)) as [s1 a].
      injection Hstep as <-. exact H1.
    + injection Hstep as <-. exact Hok.
    + injection Hstep as <-. exact Hok.
Qed.

Lemma filter_length_le {A : Type} (P : A -> bool) (l : list A) :
  (length (List.filter P l) <= length l)%nat.
Proof. induction l as [|x l IH]; cbn; [lia|]. destruct (P x); cbn; lia. Qed.

(** X16: [fetchToken] never retries: in every state that a run reaches, the
    token requests sent are as many as the calls of [fetchToken] that have
    passed line 119, so never more than the calls of [fetchToken]. *)
Theorem one_token_request_per_fetch (providers : list (string * ProviderEntry))
    (t0 : Z) (evs : list Event) (s : State) :
  run providers (initial t0) evs = Some s ->
  length (issued s) = length (List.filter past_logging (fetches s)) /\
  (length (issued s) <= length (fetches s))%nat.
Proof.
  intros Hrun.
  assert (Hok : requests_ok s).
  { revert Hrun. intros Hrun.
    apply (run_invariant providers requests_ok (fun _ => True)
             (fun s1 ev s2 Hstep _ => requests_ok_step providers s1 ev s2 Hstep)
             evs (initial t0) s Hrun).
    - apply Forall_always. auto.
    - reflexivity. }
  split; [exact Hok|]. rewrite Hok. apply filter_length_le.
Qed.

Lemma one_token_request_per_fetch_witness :
  (length (issued (state_after both_rejected))
   <= length (fetches (state_after both_rejected)))%nat.
Proof.
  refine (proj2 (one_token_request_per_fetch registry 0 both_rejected
                   (state_after both_rejected) _)).
  vm_compute. reflexivity.
Defined.

(** ** Where credentials and tokens go *)

Section Provenance.

Variable providers : list (string * ProviderEntry).

Lemma set_pc_calls d pc s d' :
  calls (set_pc d pc s) !! d'
  = (fun c => {| c_input := c_input c; c_init := c_init c;
                 c_pc := if decide (d = d') then pc else c_pc c |})
      <$> calls s !! d'.
Proof.
  destruct (decide (d = d')) as [<-|Hne].
  - destruct (calls s !! d) as [c|] eqn:E.
    + rewrite (set_pc_lookup d pc s c E). reflexivity.
    + unfold set_pc. cbn. rewrite E. rewrite E. reflexivity.
  - rewrite (set_pc_lookup_ne d d' pc s Hne).
    destruct (calls s !! d') as [[]|]; reflexivity.
Qed.

Lemma sent_ok_calls s s' x :
  (forall d c, calls s !! d = Some c ->
               exists c', calls s' !! d = Some c' /\
                          c_input c' = c_input c /\ c_init c' = c_init c) ->
  sent_ok providers s x -> sent_ok providers s' x.
Proof.
  intros H (c & Hc & Hi & Hd). destruct (H _ _ Hc) as (c' & Hc' & E1 & E2).
  exists c'. rewrite E1, E2. auto.
Qed.

Lemma provenance_set_pc d pc s c :
  calls s !! d = Some c ->
  (pc_provider pc = None \/ pc_provider pc = pc_provider (c_pc c)) ->
  provenance providers s -> provenance providers (set_pc d pc s).
Proof.
  intros Hc Hpc (H1 & H2 & H3 & H4). split; [|split; [|split]].
  - intros d' c' id cfg Hc' Hp. rewrite set_pc_calls in Hc'.
    destruct (calls s !! d') as [c0|] eqn:E; [|discriminate].
    cbn in Hc'. injection Hc' as <-. cbn in Hp |- *.
    destruct (decide (d = d')) as [<-|Hne].
    + rewrite Hc in E. injection E as <-.
      destruct Hpc as [Hn|He]; [congruence|].
      rewrite He in Hp. eapply H1; eassumption.
    + eapply H1; eassumption.
  - exact H2.
  - exact H3.
  - eapply Forall_impl; [exact H4|]. intros x. apply sent_ok_calls.
    intros d' c' Hc'. rewrite set_pc_calls, Hc'. cbn. eexists. split; [reflexivity|].
    split; reflexivity.
Qed.

Lemma provenance_send d s c id cfg init' :
  calls s !! d = Some c ->
  find_provider providers (url_of (c_input c)) = Some (id, cfg) ->
  provenance providers s ->
  provenance providers (send d (c_input c) init' s).
Proof.
  intros Hc Hf (H1 & H2 & H3 & H4). split; [exact H1|]. split; [exact H2|].
  split; [exact H3|]. cbn. apply Forall_app. split; [exact H4|].
  constructor; [|constructor]. exists c. cbn. split; [exact Hc|].
  split; [reflexivity|]. right.
  apply find_provider_some in Hf as [Hin Hp]. eauto.
Qed.

Lemma provenance_getToken id cfg s :
  In (id, cfg) providers ->
  provenance providers s ->
  provenance providers (getToken id (oauth cfg) s).1.
Proof.
  intros Hin H.
  destruct (getToken_result id (oauth cfg) s) as [[t E]|[[q E]|[_ E]]];
    rewrite E; cbn [fst]; try exact H.
  destruct H as (H1 & H2 & H3 & H4). split; [exact H1|]. split; [|split].
  - cbn. apply Forall_app. split; [exact H2|].
    constructor; [|constructor]. exists id, cfg. auto.
  - exact H3.
  - exact H4.
Qed.

Lemma provenance_fetch_update s q fq ph fr :
  fetches s !! q = Some fq ->
  provenance providers s ->
  provenance providers
    (with_fetches
       (fun fs => <[q := {| f_config := f_config fq; f_phase := ph;
                            f_frame := fr |}]> fs) s).
Proof.
  intros Hq (H1 & H2 & H3 & H4). split; [exact H1|]. split; [|split].
  - cbn. apply Forall_insert; [exact H2|].
    rewrite Forall_lookup in H2. exact (H2 q fq Hq).
  - exact H3.
  - exact H4.
Qed.

Lemma provenance_step s ev s' :
  step providers s ev = Some s' ->
  provenance providers s -> provenance providers s'.
Proof.
  intros Hstep Hok.
  destruct ev as [dt|input init|q|q reply|q|d|d reply]; cbn in Hstep.
  - injection Hstep as <-. exact Hok.
  - injection Hstep as <-. unfold interceptor.
    destruct (find_provider providers (url_of input)) as [[id cfg]|] eqn:Hf.
    + pose proof (provenance_getToken id cfg s
                    (proj1 (find_provider_some _ _ _ _ Hf)) Hok) as H1.
      destruct (getToken_calls_sent id (oauth cfg) s) as [Hcs _].
      destruct (getToken id (oauth cfg) s) as [s1 a]. cbn [fst] in H1, Hcs.
      destruct H1 as (H1 & H2 & H3 & H4). split; [|split; [|split]].
      * intros d c id' cfg' Hc Hp. cbn in Hc.
        destruct (decide (d < length (calls s1))%nat) as [Hlt|Hge].
        { rewrite lookup_app_l in Hc by exact Hlt. eapply H1; eassumption. }
        rewrite lookup_app_r in Hc by lia.
        destruct (d - length (calls s1))%nat; cbn in Hc; [|discriminate].
        injection Hc as <-. cbn in Hp |- *. injection Hp as <- <-. exact Hf.
      * exact H2.
      * exact H3.
      * eapply Forall_impl; [exact H4|]. intros x. apply sent_ok_calls.
        intros d c Hc. exists c. split; [|auto]. cbn.
        apply lookup_app_l_Some. exact Hc.
    + destruct Hok as (H1 & H2 & H3 & H4). split; [|split; [|split]].
      * intros d c id cfg Hc Hp. cbn in Hc.
        destruct (decide (d < length (calls s))%nat) as [Hlt|Hge].
        { rewrite lookup_app_l in Hc by exact Hlt. eapply H1; eassumption. }
        rewrite lookup_app_r in Hc by lia.
        destruct (d - length (calls s))%nat; cbn in Hc; [|discriminate].
        injection Hc as <-. discriminate.
      * exact H2.
      * exact H3.
      * cbn. apply Forall_app. split.
        { eapply Forall_impl; [exact H4|]. intros x. apply sent_ok_calls.
          intros d c Hc. exists c. split; [|auto]. cbn.
          apply lookup_app_l_Some. exact Hc. }
        constructor; [|constructor]. eexists. cbn.
        split; [rewrite lookup_app_r by lia; rewrite Nat.sub_diag; reflexivity|].
        cbn. auto.
  - unfold fetchToken_send in Hstep.
    destruct (fetches s !! q) as [fq|] eqn:Hq; [|discriminate]. cbn in Hstep.
    destruct (f_phase fq); try discriminate. injection Hstep as <-.
    pose proof (provenance_fetch_update s q fq Requested (f_frame fq) Hq Hok)
      as (H1 & H2 & H3 & H4).
    split; [exact H1|]. split; [exact H2|]. split; [|exact H4].
    cbn. apply Forall_app. split; [exact H3|].
    constructor; [|constructor]. exists (f_config fq). split; [|reflexivity].
    destruct Hok as (_ & Hf & _). rewrite Forall_lookup in Hf. exact (Hf q fq Hq).
  - unfold fetchToken_reply in Hstep.
    destruct (fetches s !! q) as [fq|] eqn:Hq; [|discriminate]. cbn in Hstep.
    destruct (f_phase fq); try discriminate. injection Hstep as <-.
    exact (provenance_fetch_update s q fq _ _ Hq Hok).
  - unfold getToken_resume in Hstep.
    destruct (fetches s !! q) as [fq|] eqn:Hq; [|discriminate]. cbn in Hstep.
    destruct (f_frame fq) as [frq|]; [|discriminate]. cbn in Hstep.
    destruct (f_phase fq) as [| |r] eqn:Hph; try discriminate.
    injection Hstep as <-.
    exact (provenance_fetch_update s q fq _ _ Hq Hok).
  - unfold interceptor_resume in Hstep.
    destruct (calls s !! d) as [c|] eqn:Hc; [|discriminate].
    cbn -[acquired] in Hstep.
    destruct (c_pc c) eqn:Hpc; try discriminate;
      destruct (acquired s a) as [[t|e]|]; try discriminate;
      cbn -[headers_set headers_of_init] in Hstep; case_headers Hstep;
      injection Hstep as <-;
      try (eapply provenance_set_pc; [exact Hc|left; reflexivity|exact Hok]).
    + assert (Hf : find_provider providers (url_of (c_input c))
                   = Some (providerId, config)).
      { destruct Hok as (H1 & _). eapply H1; [exact Hc|]. rewrite Hpc. reflexivity. }
      match goal with
      | |- provenance _ (send _ _ _ (set_pc _ ?pc _)) =>
          pose proof (provenance_set_pc d pc s c Hc
                        ltac:(right; rewrite Hpc; reflexivity) Hok) as Hok1
      end.
      eapply (provenance_send d _ {| c_input := c_input c; c_init := c_init c;
                                     c_pc := _ |} providerId config);
        [apply set_pc_lookup; exact Hc|exact Hf|exact Hok1].
    + assert (Hf : find_provider providers (url_of (c_input c))
                   = Some (providerId, config)).
      { destruct Hok as (H1 & _). eapply H1; [exact Hc|]. rewrite Hpc. reflexivity. }
      pose proof (provenance_set_pc d AwaitSecond s c Hc
                    ltac:(left; reflexivity) Hok) as Hok1.
      eapply (provenance_send d _ {| c_input := c_input c; c_init := c_init c;
                                     c_pc := _ |} providerId config);
        [apply set_pc_lookup; exact Hc|exact Hf|exact Hok1].
  - unfold interceptor_reply in Hstep.
    destruct (calls s !! d) as [c|] eqn:Hc; [|discriminate]. cbn in Hstep.
    destruct (c_pc c) eqn:Hpc; try discriminate.
    + destruct reply as [cause|res].
      { injection Hstep as <-.
        eapply provenance_set_pc; [exact Hc|left; reflexivity|exact Hok]. }
      destruct (status res =? 401).
      * assert (Hf : find_provider providers (url_of (c_input c))
                     = Some (providerId, config)).
        { destruct Hok as (H1 & _). eapply H1; [exact Hc|].
          rewrite Hpc. reflexivity. }
        pose proof (provenance_getToken providerId config
                      (with_tokenCache (delete providerId) s)
                      (proj1 (find_provider_some _ _ _ _ Hf)) Hok) as H1.
        destruct (getToken_calls_sent providerId (oauth config)
                    (with_tokenCache (delete providerId) s)) as [Hcs _].
        destruct (getToken providerId (oauth config)
                    (with_tokenCache (delete providerId) s)) as [s1 a].
        cbn [fst] in H1, Hcs. injection Hstep as <-.
        eapply provenance_set_pc; [rewrite Hcs; exact Hc| |exact H1].
        right. rewrite Hpc. reflexivity.
      * injection Hstep as <-.
        eapply provenance_set_pc; [exact Hc|left; reflexivity|exact Hok].
    + injection Hstep as <-.
      eapply provenance_set_pc; [exact Hc|left; reflexivity|exact Hok].
    + injection Hstep as <-.
      eapply provenance_set_pc; [exact Hc|left; reflexivity|exact Hok].
Qed.

End Provenance.

Lemma provenance_run providers t0 evs s :
  run providers (initial t0) evs = Some s -> provenance providers s.
Proof.
  intros Hrun.
  apply (run_invariant providers (provenance providers) (fun _ => True)
           (fun s1 ev s2 Hstep _ => provenance_step providers s1 ev s2 Hstep)
           evs (initial t0) s Hrun).
  - apply Forall_always. auto.
  - split; [intros d c id cfg Hc; discriminate|].
    split; [constructor|]. split; constructor.
Qed.

(** X17: the client credentials go nowhere but to the token endpoints of
    the registry: in every state that a run reaches, each token request
    that was sent is the request that [fetchToken] builds from the [oauth]
    block of a registered provider, so its URL is the [tokenUrl] of the
    provider whose [clientId] and [clientSecret] its body holds. *)
Theorem credentials_go_only_to_registered_issuers
    (providers : list (string * ProviderEntry)) (t0 : Z) (evs : list Event)
    (s : State) :
  run providers (initial t0) evs = Some s ->
  Forall (fun rq => exists id e,
              In (id, e) providers /\ rq = fetchToken_request (oauth e) /\
              rq_url rq = tokenUrl (oauth e))
    (issued s).
Proof.
  intros Hrun. destruct (provenance_run providers t0 evs s Hrun) as (_ & _ & H & _).
  eapply Forall_impl; [exact H|]. cbn.
  intros rq (config & (id & e & Hin & <-) & ->). exists id, e.
  split; [exact Hin|]. split; reflexivity.
Qed.

Lemma credentials_go_only_to_registered_issuers_witness :
  Forall (fun rq => exists id e,
              In (id, e) registry /\ rq = fetchToken_request (oauth e) /\
              rq_url rq = tokenUrl (oauth e))
    (issued (state_after both_rejected)).
Proof.
  apply (credentials_go_only_to_registered_issuers registry 0 both_rejected).
  vm_compute. reflexivity.
Defined.

(** X18: a request leaves the interceptor changed only when its URL is under
    a registered [baseURL]: in every state that a run reaches, each request
    passed to the original fetch goes to the input of the call that sent
    it, and its [init] is the caller's unless the URL of that input starts
    with the [baseURL] of a registered provider. *)
Theorem changed_requests_match_a_provider
    (providers : list (string * ProviderEntry)) (t0 : Z) (evs : list Event)
    (s : State) :
  run providers (initial t0) evs = Some s ->
  Forall (sent_ok providers s) (sent s).
Proof.
  intros Hrun. destruct (provenance_run providers t0 evs s Hrun) as (_ & _ & _ & H).
  exact H.
Qed.

Lemma changed_requests_match_a_provider_witness :
  Forall (sent_ok registry (state_after both_rejected))
    (sent (state_after both_rejected)).
Proof.
  apply (changed_requests_match_a_provider registry 0 both_rejected).
  vm_compute. reflexivity.
Defined.

(** ** Whose token a request holds *)

Lemma obtained_grow s s' config t :
  fetches_grow s s' -> obtained s config t -> obtained s' config t.
Proof.
  intros Hg (q & f & Hq & Hc & Hp). destruct (Hg q f Hq) as (f' & Hq' & Hc' & Hp').
  exists q, f'. split; [exact Hq'|]. split; [congruence|]. apply Hp'. exact Hp.
Qed.

Lemma acq_ok_grow s s' config a :
  fetches_grow s s' -> acq_ok s config a -> acq_ok s' config a.
Proof.
  intros Hg. destruct a as [t|p|p]; cbn.
  - apply obtained_grow. exact Hg.
  - intros (f & Hp & Hc). destruct (Hg p f Hp) as (f' & Hp' & Hc' & _).
    exists f'. split; [exact Hp'|congruence].
  - intros (f & Hp & Hc). destruct (Hg p f Hp) as (f' & Hp' & Hc' & _).
    exists f'. split; [exact Hp'|congruence].
Qed.

Lemma carries_token_grow providers s s' x :
  fetches_grow s s' -> carries_token providers s x -> carries_token providers s' x.
Proof.
  intros Hg H id e Hf.
  destruct (H id e Hf) as (t & init & value & H1 & H2 & H3 & H4).
  exists t, init, value. split; [exact H1|]. split; [exact H2|].
  split; [exact H3|]. eapply obtained_grow; eassumption.
Qed.

Lemma fetches_grow_refl s s' : fetches s' = fetches s -> fetches_grow s s'.
Proof. intros E q f Hq. exists f. rewrite E. auto. Qed.

Lemma fetches_grow_app s s' l :
  fetches s' = fetches s ++ l -> fetches_grow s s'.
Proof.
  intros E q f Hq. exists f. rewrite E.
  split; [apply lookup_app_l_Some; exact Hq|auto].
Qed.

Lemma fetches_grow_insert s s' q fq f' :
  fetches s !! q = Some fq ->
  fetches s' = <[q := f']> (fetches s) ->
  f_config f' = f_config fq ->
  (forall r, f_phase fq = Done r -> f_phase f' = Done r) ->
  fetches_grow s s'.
Proof.
  intros Hq E Hc Hp q' f Hq'. rewrite E.
  destruct (decide (q = q')) as [<-|Hne].
  - exists f'. rewrite Hq in Hq'. injection Hq' as <-.
    split; [apply list_lookup_insert_eq; eapply lookup_lt_Some, Hq|]. auto.
  - exists f. rewrite list_lookup_insert_ne by exact Hne. auto.
Qed.

Lemma NoDup_fst_In {A : Type} (l : list (string * A)) k a b :
  NoDup (map fst l) -> In (k, a) l -> In (k, b) l -> a = b.
Proof.
  induction l as [|[k' v] l IH]; intros Hnd Ha Hb; [destruct Ha|].
  cbn in Hnd. apply NoDup_cons in Hnd as [Hnot Hnd].
  assert (Hin : forall x, In (k', x) l -> False).
  { intros x Hx. apply Hnot. apply list_elem_of_In.
    apply (in_map fst) in Hx. exact Hx. }
  destruct Ha as [[= -> ->]|Ha], Hb as [[= <-]|Hb].
  - reflexivity.
  - destruct (Hin _ Hb).
  - subst. destruct (Hin _ Ha).
  - apply IH; assumption.
Qed.

Section Origin.

Variable providers : list (string * ProviderEntry).
Hypothesis providers_distinct : NoDup (map fst providers).

(** What changes only the calls of [fetchToken], keeping their frames. *)
Lemma token_origin_grow s s' :
  fetches_grow s s' ->
  tokenCache s' = tokenCache s -> calls s' = calls s -> sent s' = sent s ->
  (forall q f' fr, fetches s' !! q = Some f' -> f_frame f' = Some fr ->
                   exists f, fetches s !! q = Some f /\ f_frame f = Some fr /\
                             f_config f = f_config f') ->
  token_origin providers s -> token_origin providers s'.
Proof.
  intros Hg Ec Ek Es Hfr (Ha & Hp & Hb & Hc & Hd).
  split; [|split; [|split; [|split]]].
  - intros id ce t Hl Ht. rewrite Ec in Hl.
    destruct (Ha id ce t Hl Ht) as (e & Hin & Ho).
    exists e. split; [exact Hin|]. eapply obtained_grow; eassumption.
  - intros id ce p Hl Hpr. rewrite Ec in Hl.
    destruct (Hp id ce p Hl Hpr) as (e & Hin & Ho).
    exists e. split; [exact Hin|]. eapply acq_ok_grow; eassumption.
  - intros q f' fr Hq Hf. destruct (Hfr q f' fr Hq Hf) as (f & Hq0 & Hf0 & Hcfg).
    destruct (Hb q f fr Hq0 Hf0) as (e & Hin & He & Hex).
    exists e. split; [exact Hin|]. split; [congruence|].
    intros t Ht. eapply obtained_grow; [exact Hg|]. apply Hex. exact Ht.
  - intros d c id cfg a Hl Hpc Hacq. rewrite Ek in Hl.
    eapply acq_ok_grow; [exact Hg|]. eapply Hc; eassumption.
  - rewrite Es. eapply Forall_impl; [exact Hd|].
    intros x. apply carries_token_grow. exact Hg.
Qed.

Lemma token_origin_delete providerId s :
  token_origin providers s ->
  token_origin providers (with_tokenCache (delete providerId) s).
Proof.
  intros (Ha & Hp & Hb & Hc & Hd). split; [|split; [|split; [|split]]].
  - intros id ce t Hl Ht. cbn in Hl. apply lookup_delete_Some in Hl as [_ Hl].
    exact (Ha id ce t Hl Ht).
  - intros id ce p Hl Hpr. cbn in Hl. apply lookup_delete_Some in Hl as [_ Hl].
    exact (Hp id ce p Hl Hpr).
  - exact Hb.
  - exact Hc.
  - exact Hd.
Qed.

Lemma token_origin_getToken id cfg s :
  In (id, cfg) providers ->
  token_origin providers s ->
  token_origin providers (getToken id (oauth cfg) s).1 /\
  acq_ok (getToken id (oauth cfg) s).1 (oauth cfg) (getToken id (oauth cfg) s).2.
Proof.
  intros Hin Hok.
  assert (Htok : forall t, tokenCache s !! id ≫= token = Some t ->
                           obtained s (oauth cfg) t).
  { intros t Ht. destruct Hok as (Ha & _).
    destruct (tokenCache s !! id) as [ce|] eqn:E; [|discriminate]. cbn in Ht.
    destruct (Ha id ce t E Ht) as (e & Hin' & Ho).
    rewrite (NoDup_fst_In providers id cfg e providers_distinct Hin Hin'). exact Ho. }
  assert (Hpro : forall p, tokenCache s !! id ≫= promise = Some p ->
                           acq_ok s (oauth cfg) (Joined p)).
  { intros p Hpr. destruct Hok as (_ & Hp & _).
    destruct (tokenCache s !! id) as [ce|] eqn:E; [|discriminate]. cbn in Hpr.
    destruct (Hp id ce p E Hpr) as (e & Hin' & Ho).
    rewrite (NoDup_fst_In providers id cfg e providers_distinct Hin Hin'). exact Ho. }
  assert (Hstart : forall existing,
             (forall t, existing = Some t -> obtained s (oauth cfg) t) ->
             token_origin providers (start_fetch id (oauth cfg) existing s).1 /\
             acq_ok (start_fetch id (oauth cfg) existing s).1 (oauth cfg)
               (start_fetch id (oauth cfg) existing s).2).
  { intros existing Hex. unfold start_fetch. cbn [fst snd].
    set (f0 := {| f_config := oauth cfg; f_phase := Logging;
                  f_frame := Some {| fr_providerId := id;
                                     fr_existingToken := existing |} |}).
    set (s1 := with_fetches (fun fs => fs ++ [f0]) s).
    assert (Hg : fetches_grow s s1) by (eapply fetches_grow_app; reflexivity).
    assert (Hnew : fetches s1 !! length (fetches s) = Some f0).
    { cbn. rewrite lookup_app_r by lia. rewrite Nat.sub_diag. reflexivity. }
    destruct Hok as (Ha & Hp & Hb & Hc & Hd).
    split; [|cbn; exists f0; split; [exact Hnew|reflexivity]].
    split; [|split; [|split; [|split]]].
    - intros id' ce t Hl Ht. cbn in Hl.
      destruct (decide (id = id')) as [<-|Hne].
      + rewrite lookup_insert_eq in Hl. injection Hl as <-. cbn in Ht.
        exists cfg. split; [exact Hin|].
        eapply obtained_grow; [exact Hg|]. apply Hex. exact Ht.
      + rewrite lookup_insert_ne in Hl by exact Hne.
        destruct (Ha id' ce t Hl Ht) as (e & Hin' & Ho).
        exists e. split; [exact Hin'|]. eapply obtained_grow; eassumption.
    - intros id' ce p Hl Hpr. cbn in Hl.
      destruct (decide (id = id')) as [<-|Hne].
      + rewrite lookup_insert_eq in Hl. injection Hl as <-. cbn in Hpr.
        injection Hpr as <-. exists cfg. split; [exact Hin|].
        exists f0. split; [exact Hnew|reflexivity].
      + rewrite lookup_insert_ne in Hl by exact Hne.
        destruct (Hp id' ce p Hl Hpr) as (e & Hin' & Ho).
        exists e. split; [exact Hin'|]. eapply (acq_ok_grow s); eassumption.
    - intros q f fr Hq Hf. cbn in Hq.
      destruct (decide (q < length (fetches s))%nat) as [Hlt|Hge].
      + rewrite lookup_app_l in Hq by exact Hlt.
        destruct (Hb q f fr Hq Hf) as (e & Hin' & He & Hex').
        exists e. split; [exact Hin'|]. split; [exact He|].
        intros t Ht. eapply obtained_grow; [exact Hg|]. apply Hex'. exact Ht.
      + rewrite lookup_app_r in Hq by lia.
        destruct (q - length (fetches s))%nat; cbn in Hq; [|discriminate].
        injection Hq as <-. cbn in Hf. injection Hf as <-. cbn.
        exists cfg. split; [exact Hin|]. split; [reflexivity|].
        intros t Ht. eapply obtained_grow; [exact Hg|]. apply Hex. exact Ht.
    - intros d c id' cfg' a Hl Hpc Hacq. cbn in Hl.
      eapply acq_ok_grow; [exact Hg|]. eapply Hc; eassumption.
    - cbn. eapply Forall_impl; [exact Hd|].
      intros x. apply carries_token_grow. exact Hg. }
  unfold getToken.
  destruct (tokenCache s !! id ≫= token) as [t|] eqn:Et.
  - destruct (usable s t).
    + split; [exact Hok|]. cbn. apply Htok. reflexivity.
    + destruct (tokenCache s !! id ≫= promise) as [p|] eqn:Ep.
      * split; [exact Hok|]. apply Hpro. reflexivity.
      * apply Hstart. intros t' [= <-]. apply Htok. reflexivity.
  - destruct (tokenCache s !! id ≫= promise) as [p|] eqn:Ep.
    + split; [exact Hok|]. apply Hpro. reflexivity.
    + apply Hstart. intros t' [=].
Qed.

(** A call moves on: its new place holds the provider it held, and the
    [getToken] call it awaits there is for that provider. *)
Lemma token_origin_set_pc d pc s c :
  calls s !! d = Some c ->
  (forall id cfg a, pc_provider pc = Some (id, cfg) ->
                    pc_acquisition pc = Some a -> acq_ok s (oauth cfg) a) ->
  token_origin providers s -> token_origin providers (set_pc d pc s).
Proof.
  intros Hd Hpc (Ha & Hp & Hb & Hc & Hs). split; [exact Ha|]. split; [exact Hp|].
  split; [exact Hb|]. split; [|exact Hs].
  intros d' c' id cfg a Hl Hprov Hacq. rewrite set_pc_calls in Hl.
  destruct (calls s !! d') as [c0|] eqn:E; [|discriminate].
  cbn in Hl. injection Hl as <-. cbn in Hprov, Hacq.
  destruct (decide (d = d')) as [<-|Hne].
  - exact (Hpc id cfg a Hprov Hacq).
  - exact (Hc d' c0 id cfg a E Hprov Hacq).
Qed.

Lemma token_origin_send d input init s :
  carries_token providers s
    {| sent_by := d; sent_input := input; sent_init := init |} ->
  token_origin providers s -> token_origin providers (send d input init s).
Proof.
  intros Hx (Ha & Hp & Hb & Hc & Hs). split; [exact Ha|]. split; [exact Hp|].
  split; [exact Hb|]. split; [exact Hc|].
  cbn. apply Forall_app. split; [exact Hs|]. constructor; [exact Hx|constructor].
Qed.

Lemma token_origin_push_call c s :
  (forall id cfg a, pc_provider (c_pc c) = Some (id, cfg) ->
                    pc_acquisition (c_pc c) = Some a -> acq_ok s (oauth cfg) a) ->
  token_origin providers s -> token_origin providers (push_call c s).
Proof.
  intros Hpc (Ha & Hp & Hb & Hc & Hs). split; [exact Ha|]. split; [exact Hp|].
  split; [exact Hb|]. split; [|exact Hs].
  intros d c' id cfg a Hl Hprov Hacq. cbn in Hl.
  destruct (decide (d < length (calls s))%nat) as [Hlt|Hge].
  - rewrite lookup_app_l in Hl by exact Hlt. eapply Hc; eassumption.
  - rewrite lookup_app_r in Hl by lia.
    destruct (d - length (calls s))%nat; cbn in Hl; [|discriminate].
    injection Hl as <-. exact (Hpc id cfg a Hprov Hacq).
Qed.

(** The token that a call of the interceptor gets from the [getToken] call
    it awaited was obtained with the [oauth] block of its provider. *)
Lemma acquired_obtained s config a t :
  acq_ok s config a -> acquired s a = Some (Fulfilled t) -> obtained s config t.
Proof.
  destruct a as [t0|p|p]; cbn.
  - intros H [= <-]. exact H.
  - intros (f & Hp & Hc) H. rewrite Hp in H. cbn in H.
    destruct (f_phase f) as [| |r] eqn:Hph; try discriminate.
    injection H as ->. exists p, f. auto.
  - intros (f & Hp & Hc) H. rewrite Hp in H. cbn in H.
    destruct (f_phase f) as [| |r] eqn:Hph; try discriminate.
    destruct (f_frame f); try discriminate.
    injection H as ->. exists p, f. auto.
Qed.

Lemma token_origin_step s ev s' :
  step providers s ev = Some s' ->
  provenance providers s ->
  token_origin providers s -> token_origin providers s'.
Proof.
  intros Hstep Hprov Hok.
  destruct ev as [dt|input init|q|q reply|q|d|d reply]; cbn in Hstep.
  - injection Hstep as <-. exact Hok.
  - injection Hstep as <-. unfold interceptor.
    destruct (find_provider providers (url_of input)) as [[id cfg]|] eqn:Hf.
    + destruct (token_origin_getToken id cfg s
                  (proj1 (find_provider_some _ _ _ _ Hf)) Hok) as [H1 H2].
      destruct (getToken id (oauth cfg) s) as [s1 a]. cbn [fst snd] in H1, H2.
      apply token_origin_push_call; [|exact H1].
      cbn. intros id' cfg' a' [= <- <-] [= <-]. exact H2.
    + apply token_origin_send.
      * intros id e Hf'. cbn in Hf'. congruence.
      * apply token_origin_push_call; [|exact Hok]. cbn. discriminate.
  - unfold fetchToken_send in Hstep.
    destruct (fetches s !! q) as [fq|] eqn:Hq; [|discriminate]. cbn in Hstep.
    destruct (f_phase fq) eqn:Hph; try discriminate. injection Hstep as <-.
    eapply token_origin_grow; [| | | | |exact Hok]; try reflexivity.
    + eapply (fetches_grow_insert s _ q fq); [exact Hq|reflexivity|reflexivity|].
      intros r Hr. congruence.
    + intros q' f' fr Hq' Hf'. cbn in Hq'.
      destruct (decide (q = q')) as [<-|Hne].
      * rewrite list_lookup_insert_eq in Hq' by (eapply lookup_lt_Some, Hq).
        injection Hq' as <-. exists fq. auto.
      * rewrite list_lookup_insert_ne in Hq' by exact Hne. exists f'. auto.
  - unfold fetchToken_reply in Hstep.
    destruct (fetches s !! q) as [fq|] eqn:Hq; [|discriminate]. cbn in Hstep.
    destruct (f_phase fq) eqn:Hph; try discriminate. injection Hstep as <-.
    eapply token_origin_grow; [| | | | |exact Hok]; try reflexivity.
    + eapply (fetches_grow_insert s _ q fq); [exact Hq|reflexivity|reflexivity|].
      intros r Hr. congruence.
    + intros q' f' fr Hq' Hf'. cbn in Hq'.
      destruct (decide (q = q')) as [<-|Hne].
      * rewrite list_lookup_insert_eq in Hq' by (eapply lookup_lt_Some, Hq).
        injection Hq' as <-. exists fq. auto.
      * rewrite list_lookup_insert_ne in Hq' by exact Hne. exists f'. auto.
  - unfold getToken_resume in Hstep.
    destruct (fetches s !! q) as [fq|] eqn:Hq; [|discriminate]. cbn in Hstep.
    destruct (f_frame fq) as [frq|] eqn:Hfr; [|discriminate]. cbn in Hstep.
    destruct (f_phase fq) as [| |r] eqn:Hph; try discriminate.
    injection Hstep as <-.
    set (f1 := {| f_config := f_config fq; f_phase := Done r; f_frame := None |}).
    set (s1 := with_fetches (fun fs => <[q := f1]> fs) s).
    assert (Hg : fetches_grow s s1).
    { eapply (fetches_grow_insert s s1 q fq f1); [exact Hq|reflexivity|reflexivity|].
      intros r' Hr. cbn. congruence. }
    assert (Hok1 : token_origin providers s1).
    { eapply token_origin_grow; [exact Hg| | | | |exact Hok]; try reflexivity.
      intros q' f' fr Hq' Hf'. cbn in Hq'.
      destruct (decide (q = q')) as [<-|Hne].
      * rewrite list_lookup_insert_eq in Hq' by (eapply lookup_lt_Some, Hq).
        injection Hq' as <-. discriminate.
      * rewrite list_lookup_insert_ne in Hq' by exact Hne. exists f'. auto. }
    destruct Hok as (_ & _ & Hb & _).
    destruct (Hb q fq frq Hq Hfr) as (e & Hin & He & Hex).
    destruct Hok1 as (Ha1 & Hp1 & Hb1 & Hc1 & Hd1).
    split; [|split; [|split; [|split]]].
    + intros id ce t Hl Ht. cbn in Hl.
      destruct (decide (fr_providerId frq = id)) as [<-|Hne].
      * rewrite lookup_insert_eq in Hl. injection Hl as <-.
        exists e. split; [exact Hin|].
        destruct r as [t'|err]; cbn in Ht.
        { injection Ht as <-. exists q, f1.
          split; [cbn; apply list_lookup_insert_eq; eapply lookup_lt_Some, Hq|].
          split; [exact He|reflexivity]. }
        eapply obtained_grow; [exact Hg|]. apply Hex. exact Ht.
      * rewrite lookup_insert_ne in Hl by exact Hne. exact (Ha1 id ce t Hl Ht).
    + intros id ce p Hl Hpr. cbn in Hl.
      destruct (decide (fr_providerId frq = id)) as [<-|Hne].
      * rewrite lookup_insert_eq in Hl. injection Hl as <-.
        destruct r; discriminate.
      * rewrite lookup_insert_ne in Hl by exact Hne. exact (Hp1 id ce p Hl Hpr).
    + exact Hb1.
    + exact Hc1.
    + exact Hd1.
  - unfold interceptor_resume in Hstep.
    destruct (calls s !! d) as [c|] eqn:Hc; [|discriminate].
    cbn -[acquired] in Hstep.
    assert (Hfind : forall id cfg, pc_provider (c_pc c) = Some (id, cfg) ->
                find_provider providers (url_of (c_input c)) = Some (id, cfg)).
    { intros id cfg Hp. destruct Hprov as (H1 & _). eapply H1; eassumption. }
    assert (Hacq : forall id cfg a, pc_provider (c_pc c) = Some (id, cfg) ->
                     pc_acquisition (c_pc c) = Some a -> acq_ok s (oauth cfg) a).
    { intros id cfg a Hp Hq. destruct Hok as (_ & _ & _ & H & _).
      eapply H; eassumption. }
    destruct (c_pc c) eqn:Hpc; try discriminate;
      destruct (acquired s a) as [[t|e]|] eqn:Ea; try discriminate;
      cbn -[headers_set headers_of_init] in Hstep; case_headers Hstep;
      injection Hstep as <-;
      try (eapply token_origin_set_pc; [exact Hc| |exact Hok];
           cbn; discriminate).
    + apply token_origin_send.
      * intros id e Hf. cbn in Hf. rewrite (Hfind _ _ eq_refl) in Hf.
        injection Hf as <- <-.
        destruct (headers_set_get _ _ _ Hset) as (value & Htrim & Hget).
        exists t. eexists. exists value. split; [reflexivity|].
        rewrite ri_headers_with. split; [exact Hget|]. split; [exact Htrim|].
        eapply acquired_obtained; [|exact Ea]. eapply Hacq; reflexivity.
      * eapply token_origin_set_pc; [exact Hc| |exact Hok]. cbn. discriminate.
    + apply token_origin_send.
      * intros id e Hf. cbn in Hf. rewrite (Hfind _ _ eq_refl) in Hf.
        injection Hf as <- <-.
        destruct (headers_set_get _ _ _ Hset) as (value & Htrim & Hget).
        exists t. eexists. exists value. split; [reflexivity|].
        rewrite ri_headers_with. split; [exact Hget|]. split; [exact Htrim|].
        eapply acquired_obtained; [|exact Ea]. eapply Hacq; reflexivity.
      * eapply token_origin_set_pc; [exact Hc| |exact Hok]. cbn. discriminate.
  - unfold interceptor_reply in Hstep.
    destruct (calls s !! d) as [c|] eqn:Hc; [|discriminate]. cbn in Hstep.
    destruct (c_pc c) eqn:Hpc; try discriminate.
    + destruct reply as [cause|res].
      { injection Hstep as <-.
        eapply token_origin_set_pc; [exact Hc| |exact Hok]. cbn. discriminate. }
      destruct (status res =? 401).
      * assert (Hf : find_provider providers (url_of (c_input c))
                     = Some (providerId, config)).
        { destruct Hprov as (H1 & _). eapply H1; [exact Hc|].
          rewrite Hpc. reflexivity. }
        destruct (token_origin_getToken providerId config
                    (with_tokenCache (delete providerId) s)
                    (proj1 (find_provider_some _ _ _ _ Hf))
                    (token_origin_delete providerId s Hok)) as [H1 H2].
        destruct (getToken_calls_sent providerId (oauth config)
                    (with_tokenCache (delete providerId) s)) as [Hcs _].
        destruct (getToken providerId (oauth config)
                    (with_tokenCache (delete providerId) s)) as [s1 a].
        cbn [fst snd] in H1, H2, Hcs. injection Hstep as <-.
        eapply token_origin_set_pc; [rewrite Hcs; exact Hc| |exact H1].
        cbn. intros id' cfg' a' [= <- <-] [= <-]. exact H2.
      * injection Hstep as <-.
        eapply token_origin_set_pc; [exact Hc| |exact Hok]. cbn. discriminate.
    + injection Hstep as <-.
      eapply token_origin_set_pc; [exact Hc| |exact Hok]. cbn. discriminate.
    + injection Hstep as <-.
      eapply token_origin_set_pc; [exact Hc| |exact Hok]. cbn. discriminate.
Qed.

Lemma token_origin_run t0 evs s :
  run providers (initial t0) evs = Some s -> token_origin providers s.
Proof.
  intros Hrun.
  assert (H : provenance providers s /\ token_origin providers s).
  { apply (run_invariant providers
             (fun s => provenance providers s /\ token_origin providers s)
             (fun _ => True)) with (evs := evs) (s := initial t0).
    - intros s1 ev s2 Hstep _ [Hp Ho]. split.
      + eapply provenance_step; eassumption.
      + eapply token_origin_step; eassumption.
    - exact Hrun.
    - apply Forall_always. auto.
    - split; [eapply (provenance_run providers t0 []); reflexivity|].
      split; [intros id ce t Hl; discriminate|].
      split; [intros id ce p Hl; discriminate|].
      split; [intros q f fr Hl; discriminate|].
      split; [intros d c id cfg a Hl; discriminate|constructor]. }
  exact (proj2 H).
Qed.

End Origin.

(** X19: a token goes only to the provider it was obtained for. With
    distinct identifiers in the registry, in every state that a run
    reaches, each request that was sent to a URL matching a provider holds
    in its [Authorization] header the value, trimmed as a [Headers] object
    stores it, of a token that a call of [fetchToken] with the [oauth]
    block of that very provider returned; and each token in
    the cache was returned by a call of [fetchToken] with the [oauth] block
    of the provider under whose identifier it is kept. *)
Theorem tokens_reach_only_their_provider
    (providers : list (string * ProviderEntry)) (t0 : Z) (evs : list Event)
    (s : State) :
  NoDup (map fst providers) ->
  run providers (initial t0) evs = Some s ->
  Forall (carries_token providers s) (sent s) /\
  forall id ce t,
    tokenCache s !! id = Some ce -> token ce = Some t ->
    exists e, In (id, e) providers /\ obtained s (oauth e) t.
Proof.
  intros Hnd Hrun.
  destruct (token_origin_run providers Hnd t0 evs s Hrun) as (Ha & _ & _ & _ & Hd).
  split; [exact Hd|exact Ha].
Qed.

Lemma tokens_reach_only_their_provider_witness :
  Forall (carries_token registry (state_after both_rejected))
    (sent (state_after both_rejected)).
Proof.
  refine (proj1 (tokens_reach_only_their_provider registry 0 both_rejected
                   (state_after both_rejected) _ _)).
  - apply (bool_decide_unpack (NoDup ["gateway"])). vm_compute. exact I.
  - vm_compute. reflexivity.
Defined.
